(** * BigNum: decimal-string arithmetic of [bignum.h]

    A shallow embedding of the functions of [namespace BigNum] and the
    properties of its operations on digit strings.

    Conventions of the embedding.
    - [std::string] is [string]; a [char] is an [ascii], read through its
      code 0..255.  On the 7-bit characters, the decimal digits '0'..'9'
      among them, this agrees with the signed and with the unsigned
      reading of [char]; what is stated about strings that need not be
      digit strings is stated for 7-bit characters.
    - [int] is [Z].  The quantities held in [int] variables ([dsum],
      [dprod], [drem], the indices) stay far below 2^31 for strings of
      fewer than 2^31 characters, so no wrap-around is written for them;
      [unval] narrows to [char] modulo 256.
    - A loop that walks an index from [length()-1] down to [0] is a
      recursion over the reversed character list: the head of the list is
      [digits[i]], the tail holds [digits[i-1]], ..., [digits[0]], and the
      index is negative exactly when the list is empty.
    - [s = c + s] (prepending a character) is [String c s]. *)

From Stdlib Require Import ZArith List Ascii String Bool Lia.
From Stdlib Require Import DecimalString FunInd Recdef Factorial.
Import ListNotations.
Local Open Scope string_scope.
Local Open Scope Z_scope.

Module BigNum.

(** convert a character to an integer *)
Definition val (c : ascii) : Z := Z.of_nat (nat_of_ascii c) - 48.

(** convert an integer to a character *)
Definition unval (n : Z) : ascii :=
  ascii_of_nat (Z.to_nat ((n + 48) mod 256)).

Record Num : Type := mkNum { digits : string }.

(** [digits[len-1]], [digits[len-2]], ..., [digits[0]] *)
Definition rdigits (s : string) : list ascii := rev (list_ascii_of_string s).

(** ** scino *)

(** [n.digits.length()-1], computed in [size_t] (64 bits): it wraps to
    [2^64 - 1] for the empty string. *)
Definition length_minus_1 (s : string) : Z :=
  match String.length s with
  | O => 2 ^ 64 - 1
  | S k => Z.of_nat k
  end.

(** [s[i]]; [s[s.length()]] is the NUL character, and the model returns
    NUL further out of range as well (C++ leaves that case undefined). *)
Definition char_at (s : string) (i : Z) : ascii :=
  match String.get (Z.to_nat i) s with
  | Some c => c
  | None => zero
  end.

(** [res << c] *)
Definition put (res : string) (c : ascii) : string := res ++ String c "".

(** The decimal numeral of an unsigned number. *)
Definition decimal (z : Z) : string :=
  NilEmpty.string_of_uint (N.to_uint (Z.to_N z)).

(** [res << z] for an unsigned [z] *)
Definition put_unsigned (res : string) (z : Z) : string := res ++ decimal z.

(** [for (int i = ...; i < sigfigs; i++)], with [k] iterations left *)
Fixpoint scino_loop (n : Num) (k : nat) (i : Z) (res : string) : string :=
  match k with
  | O => res
  | S k' =>
      let res :=
        if i >? length_minus_1 (digits n)
        then put res "0"
        else put res (char_at (digits n) i) in
      scino_loop n k' (i + 1) res
  end.

Definition scino (n : Num) (sigfigs : Z) : string :=
  let res := put "" (char_at (digits n) 0) in
  let res :=
    if sigfigs >? 1
    then scino_loop n (Z.to_nat (sigfigs - 1)) 1 (put res ".")
    else res in
  let res := put res "E" in
  put_unsigned res (length_minus_1 (digits n)).

Definition scino_default (n : Num) : string := scino n 5.

Definition scino_str (n : string) (sigfigs : Z) : string :=
  scino (mkNum n) sigfigs.

Definition scino_str_default (n : string) : string := scino (mkNum n) 5.

(** ** compare *)

(** The loop runs only when both strings have the same length, so the two
    lists are consumed together. *)
Fixpoint compare_loop (xs ys : list ascii) : Z :=
  match xs, ys with
  | cx :: xs', cy :: ys' =>
      if val cx >? val cy then 1
      else if val cx <? val cy then -1
      else compare_loop xs' ys'
  | _, _ => 0
  end.

Definition compare (x y : Num) : Z :=
  if (String.length (digits y) <? String.length (digits x))%nat then 1
  else if (String.length (digits x) <? String.length (digits y))%nat then -1
  else compare_loop (list_ascii_of_string (digits x))
                    (list_ascii_of_string (digits y)).

(** ** add *)

(** State of the [while] loop: the digits of [x] and of [y] still to be
    read (from index [xind], resp. [yind], downwards), [drem] and [sum]. *)
Definition add_state : Type := list ascii * list ascii * Z * string.

Definition nonempty (l : list ascii) : bool :=
  match l with [] => false | _ :: _ => true end.

(** [xind >= 0 || yind >= 0 || drem == 1] *)
Definition add_cond (st : add_state) : bool :=
  let '(xs, ys, drem, _) := st in
  nonempty xs || nonempty ys || (drem =? 1).

Definition add_body (st : add_state) : add_state :=
  let '(xs, ys, drem, sum) := st in
  let dsum := drem in
  let dsum := match xs with cx :: _ => dsum + val cx | [] => dsum end in
  let dsum := match ys with cy :: _ => dsum + val cy | [] => dsum end in
  let '(dsum, drem) := if dsum >=? 10 then (dsum - 10, 1) else (dsum, 0) in
  (tl xs, tl ys, drem, String (unval dsum) sum).

Definition add_measure (st : add_state) : nat :=
  let '(xs, ys, drem, _) := st in
  (2 * (List.length xs + List.length ys) + (if Z.eqb drem 1 then 1 else 0))%nat.

Function add_loop (st : add_state) {measure add_measure st} : string :=
  if add_cond st then add_loop (add_body st)
  else let '(_, _, _, sum) := st in sum.
Proof.
  intros [[[xs ys] drem] sum] H.
  unfold add_cond in H. unfold add_body, add_measure.
  destruct xs, ys; simpl in *.
  - rewrite H. apply Z.eqb_eq in H. subst drem. simpl. lia.
  - destruct (_ >=? 10); destruct (drem =? 1); simpl; lia.
  - destruct (_ >=? 10); destruct (drem =? 1); simpl; lia.
  - destruct (_ >=? 10); destruct (drem =? 1); simpl; lia.
Defined.

(** x will always be greater or equal to y in terms of number of digits *)
Definition order_by_length (m n : Num) : Num * Num :=
  if (String.length (digits n) <=? String.length (digits m))%nat
  then (m, n) else (n, m).

Definition add (m n : Num) : Num :=
  let '(x, y) := order_by_length m n in
  mkNum (add_loop (rdigits (digits x), rdigits (digits y), 0, "")).

Definition add_str (m n : string) : Num := add (mkNum m) (mkNum n).

(** ** multiply *)

(** [for (int i = 0; i < zeroes; i++) dtotal = '0' + dtotal;] *)
Fixpoint zero_fill (zeroes : nat) (dtotal : string) : string :=
  match zeroes with
  | O => dtotal
  | S k => zero_fill k (String "0" dtotal)
  end.

(** The inner loop over [xind], for the digit [cy = y.digits[yind]]. *)
Fixpoint digit_products (xs : list ascii) (cy : ascii) (drem : Z)
    (dtotal : string) : Z * string :=
  match xs with
  | [] => (drem, dtotal)
  | cx :: xs' =>
      let dprod := val cx * val cy + drem in
      let '(dprod, drem) :=
        if dprod >=? 10
        then let drem := Z.quot dprod 10 in (dprod - drem * 10, drem)
        else (dprod, 0) in
      digit_products xs' cy drem (String (unval dprod) dtotal)
  end.

(** One pass of the outer loop up to the call of [add]: the string
    [dtotal]. *)
Definition partial_product (x : Num) (cy : ascii) (zeroes : nat) : string :=
  let '(drem, dtotal) :=
    digit_products (rdigits (digits x)) cy 0 (zero_fill zeroes "") in
  if drem >? 0 then String (unval drem) dtotal else dtotal.

(** The outer loop over [yind]. *)
Fixpoint multiply_loop (x : Num) (ys : list ascii) (zeroes : nat)
    (product : Num) : Num :=
  match ys with
  | [] => product
  | cy :: ys' =>
      multiply_loop x ys' (S zeroes)
        (add product (mkNum (partial_product x cy zeroes)))
  end.

Definition multiply (m n : Num) : Num :=
  if (digits m =? "0")%string || (digits n =? "0")%string then mkNum "0"
  else
    let '(x, y) := order_by_length m n in
    multiply_loop x (rdigits (digits y)) 0 (mkNum "0").

Definition multiply_str (m n : string) : Num := multiply (mkNum m) (mkNum n).

(** ** decrement *)

(** [ds] holds [n.digits[i]] downwards, so [i] is the length of its
    tail.  [break] leaves the loop with the current [res]. *)
Fixpoint decrement_loop (n : Num) (ds : list ascii) (decr : bool)
    (res : string) : string :=
  match ds with
  | [] => res
  | c :: ds' =>
      let i := List.length ds' in
      if decr then
        if (i =? 0)%nat && (c =? "1")%char
           && (1 <? String.length (digits n))%nat
        then res
        else if (c =? "0")%char
        then decrement_loop n ds' true (String "9" res)
        else decrement_loop n ds' false (String (unval (val c - 1)) res)
      else decrement_loop n ds' false (String c res)
  end.

Definition decrement (n : Num) : Num :=
  mkNum (decrement_loop n (rdigits (digits n)) true "").

Definition decrement_str (n : string) : Num := decrement (mkNum n).

(** ** power *)

(** [while (p.digits != "0") { res = multiply(n, res); p = decrement(p); }]
    The loop need not end (it never does for the empty string), so the
    model counts iterations: [None] when [fuel] passes are not enough. *)
Fixpoint power_loop (fuel : nat) (n p res : Num) : option Num :=
  if (digits p =? "0")%string then Some res
  else
    match fuel with
    | O => None
    | S fuel' => power_loop fuel' n (decrement p) (multiply n res)
    end.

Definition power (fuel : nat) (n p : Num) : option Num :=
  power_loop fuel n p (mkNum "1").

Definition power_str (fuel : nat) (n p : string) : option Num :=
  power fuel (mkNum n) (mkNum p).

(** ** factorial *)

(** The recursion is as deep as [n] counts and need not end, so the model
    bounds its depth by [fuel]. *)
Fixpoint factorial (fuel : nat) (n : Num) : option Num :=
  if negb (digits n =? "0")%string && negb (digits n =? "1")%string then
    match fuel with
    | O => None
    | S fuel' =>
        match factorial fuel' (decrement n) with
        | Some r => Some (multiply n r)
        | None => None
        end
    end
  else Some (mkNum "1").

Definition factorial_str (fuel : nat) (n : string) : option Num :=
  factorial fuel (mkNum n).

End BigNum.

Import BigNum.

(** * Values *)

(** A decimal digit character. *)
Definition is_digit (c : ascii) : bool := (0 <=? val c) && (val c <=? 9).

(** A Value: every character is a decimal digit. *)
Definition is_value (s : string) : bool :=
  forallb is_digit (list_ascii_of_string s).

(** Canonical form: a non-empty digit string with no leading zero, except
    the single digit "0" itself. *)
Definition canonical (s : string) : bool :=
  is_value s &&
  match s with
  | EmptyString => false
  | String c rest => negb (c =? "0")%char || (rest =? "")%string
  end.

(** The number a digit string denotes, most significant digit first. *)
Definition value (s : string) : Z :=
  fold_left (fun acc c => acc * 10 + val c) (list_ascii_of_string s) 0.

(** Little-endian reading of a reversed digit list, the order in which
    the loops consume their operands. *)
Definition lvalue (ds : list ascii) : Z :=
  fold_right (fun c v => val c + 10 * v) 0 ds.

Definition digits_ok (ds : list ascii) : Prop :=
  Forall (fun c => 0 <= val c <= 9) ds.

(** [k] copies of the character [c]. *)
Fixpoint replicate (k : nat) (c : ascii) : string :=
  match k with
  | O => ""
  | S k' => String c (replicate k' c)
  end.

(** The digit read at an index, 0 once the operand is exhausted. *)
Definition hdval (l : list ascii) : Z :=
  match l with c :: _ => val c | [] => 0 end.

(** 1 when [total] does not fit in [m] decimal digits, else 0. *)
Definition extra_digit (m : nat) (total : Z) : nat :=
  if 10 ^ Z.of_nat m <=? total then 1%nat else 0%nat.

(** The state of the [add] loop with the two operands exchanged. *)
Definition swap_operands (st : add_state) : add_state :=
  let '(xs, ys, drem, sum) := st in (ys, xs, drem, sum).

(** The string whose digits, read from the right, are [ds]. *)
Definition unrev (ds : list ascii) : string := string_of_list_ascii (rev ds).

(** What [compare] returns for each outcome of comparing two numbers. *)
Definition ordering (c : comparison) : Z :=
  match c with Gt => 1 | Eq => 0 | Lt => -1 end.

(** [s] followed by as many "0" as it takes to reach [k] characters. *)
Definition pad_right (s : string) (k : nat) : string :=
  s ++ replicate (k - length s) "0".

(** The rendering as the specification words it: the first digit; when
    more than one significant digit is asked for, a decimal point and
    the next [significant_digits - 1] digits, padded on the right with
    "0"; then "E" and the exponent [len(digits) - 1]. *)
Definition scientific (v : string) (significant_digits : Z) : string :=
  let more := Z.to_nat (significant_digits - 1) in
  substring 0 1 v
  ++ (if 1 <? significant_digits
      then "." ++ pad_right (substring 1 more v) more
      else "")
  ++ "E" ++ decimal (Z.of_nat (length v) - 1).

(** [s] is a digit string of at least [m] characters that is no longer
    than [m] unless the number it denotes needs the room. *)
Definition fits (m : nat) (s : string) : Prop :=
  is_value s = true /\
  (m <= length s)%nat /\
  ((m < length s)%nat -> 10 ^ (Z.of_nat (length s) - 1) <= value s).

(** A character whose code is below 128: [val] reads it the same
    whether [char] is signed or not. *)
Definition seven_bit (c : ascii) : bool := (nat_of_ascii c <? 128)%nat.

Definition seven_bit_string (s : string) : bool :=
  forallb seven_bit (list_ascii_of_string s).



(** * Characters *)

Section Characters.

Lemma is_digit_range (c : ascii) : is_digit c = true <-> 0 <= val c <= 9.
Proof. unfold is_digit. rewrite andb_true_iff, !Z.leb_le. tauto. Qed.

Lemma val_unval (n : Z) : 0 <= n <= 9 -> val (unval n) = n.
Proof.
  intros H. unfold val, unval.
  rewrite Z.mod_small by lia.
  rewrite nat_ascii_embedding by lia.
  rewrite Z2Nat.id by lia. lia.
Qed.

Lemma val_inj (c d : ascii) : val c = val d -> c = d.
Proof.
  unfold val. intros H.
  rewrite <- (ascii_nat_embedding c), <- (ascii_nat_embedding d).
  f_equal. lia.
Qed.

Lemma unval_val (c : ascii) : unval (val c) = c.
Proof.
  unfold unval, val.
  pose proof (nat_ascii_bounded c) as B.
  replace (Z.of_nat (nat_of_ascii c) - 48 + 48) with (Z.of_nat (nat_of_ascii c)) by lia.
  rewrite Z.mod_small by lia.
  rewrite Nat2Z.id. apply ascii_nat_embedding.
Qed.

Lemma val_char0 : val "0" = 0.
Proof. reflexivity. Qed.

Lemma val_char1 : val "1" = 1.
Proof. reflexivity. Qed.

Lemma val_char9 : val "9" = 9.
Proof. reflexivity. Qed.

Lemma eqb_char0 (c : ascii) : (c =? "0")%char = (val c =? 0).
Proof.
  destruct (Ascii.eqb_spec c "0") as [-> | N]; [reflexivity |].
  symmetry. apply Z.eqb_neq. intros E. apply N. apply val_inj. exact E.
Qed.

Lemma eqb_char1 (c : ascii) : (c =? "1")%char = (val c =? 1).
Proof.
  destruct (Ascii.eqb_spec c "1") as [-> | N]; [reflexivity |].
  symmetry. apply Z.eqb_neq. intros E. apply N. apply val_inj. exact E.
Qed.

End Characters.

(** * Strings as character lists *)

Section Strings.

Lemma append_assoc (a b c : string) : (a ++ b) ++ c = a ++ (b ++ c).
Proof. induction a as [| x a IH]; simpl; [reflexivity | now rewrite IH]. Qed.

Lemma append_nil_r (a : string) : a ++ "" = a.
Proof. induction a as [| x a IH]; simpl; [reflexivity | now rewrite IH]. Qed.

Lemma append_snoc (a : string) (c : ascii) (b : string) :
  a ++ String c b = (a ++ String c "") ++ b.
Proof. now rewrite append_assoc. Qed.

Lemma length_append (a b : string) :
  length (a ++ b) = (length a + length b)%nat.
Proof. induction a as [| x a IH]; simpl; [reflexivity | now rewrite IH]. Qed.

Lemma chars_append (a b : string) :
  list_ascii_of_string (a ++ b) =
  (list_ascii_of_string a ++ list_ascii_of_string b)%list.
Proof. induction a as [| x a IH]; simpl; [reflexivity | now rewrite IH]. Qed.

Lemma length_chars (a : string) :
  List.length (list_ascii_of_string a) = length a.
Proof. induction a as [| x a IH]; simpl; [reflexivity | now rewrite IH]. Qed.

Lemma chars_inj (a b : string) :
  list_ascii_of_string a = list_ascii_of_string b -> a = b.
Proof.
  intros H.
  rewrite <- (string_of_list_ascii_of_string a),
          <- (string_of_list_ascii_of_string b).
  now rewrite H.
Qed.

Lemma length_rdigits (a : string) : List.length (rdigits a) = length a.
Proof. unfold rdigits. now rewrite length_rev, length_chars. Qed.

Lemma rdigits_cons (c : ascii) (a : string) :
  rdigits (String c a) = (rdigits a ++ [c])%list.
Proof. reflexivity. Qed.

Lemma rdigits_append (a b : string) :
  rdigits (a ++ b) = (rdigits b ++ rdigits a)%list.
Proof. unfold rdigits. now rewrite chars_append, rev_app_distr. Qed.

Lemma rdigits_inj (a b : string) : rdigits a = rdigits b -> a = b.
Proof.
  unfold rdigits. intros H. apply chars_inj.
  rewrite <- (rev_involutive (list_ascii_of_string a)), H.
  apply rev_involutive.
Qed.

Lemma length_replicate (k : nat) (c : ascii) : length (replicate k c) = k.
Proof. induction k as [| k IH]; simpl; [reflexivity | now rewrite IH]. Qed.

Lemma replicate_snoc (k : nat) (c : ascii) :
  replicate k c ++ String c "" = String c (replicate k c).
Proof. induction k as [| k IH]; simpl; [reflexivity | now rewrite IH]. Qed.

End Strings.

(** * Digit strings and the numbers they denote *)

Section Values.

Lemma pow10_S (k : nat) : 10 ^ Z.of_nat (S k) = 10 * 10 ^ Z.of_nat k.
Proof. rewrite Nat2Z.inj_succ, Z.pow_succ_r by lia. reflexivity. Qed.

Lemma pow10_pos (k : nat) : 0 < 10 ^ Z.of_nat k.
Proof. apply Z.pow_pos_nonneg; lia. Qed.

Lemma pow10_add (j k : nat) :
  10 ^ Z.of_nat (j + k) = 10 ^ Z.of_nat j * 10 ^ Z.of_nat k.
Proof. rewrite Nat2Z.inj_add, Z.pow_add_r by lia. reflexivity. Qed.

Lemma pow10_le (j k : nat) :
  (j <= k)%nat -> 10 ^ Z.of_nat j <= 10 ^ Z.of_nat k.
Proof. intros H. apply Z.pow_le_mono_r; lia. Qed.

Lemma lvalue_cons (c : ascii) (ds : list ascii) :
  lvalue (c :: ds) = val c + 10 * lvalue ds.
Proof. reflexivity. Qed.

Lemma lvalue_app (a b : list ascii) :
  lvalue (a ++ b) = lvalue a + 10 ^ Z.of_nat (List.length a) * lvalue b.
Proof.
  induction a as [| c a IH].
  - change (lvalue b = 0 + 10 ^ 0 * lvalue b). lia.
  - change ((c :: a) ++ b)%list with (c :: (a ++ b))%list.
    rewrite !lvalue_cons, IH. cbn [List.length]. rewrite pow10_S. ring.
Qed.

Lemma lvalue_bound (ds : list ascii) :
  digits_ok ds -> 0 <= lvalue ds < 10 ^ Z.of_nat (List.length ds).
Proof.
  induction 1 as [| c ds Hc _ IH].
  - simpl. lia.
  - rewrite lvalue_cons. cbn [List.length]. rewrite pow10_S. lia.
Qed.

Lemma value_lvalue (s : string) : value s = lvalue (rdigits s).
Proof.
  unfold value, lvalue, rdigits.
  rewrite <- fold_left_rev_right.
  induction (rev (list_ascii_of_string s)) as [| c l IH]; [reflexivity |].
  cbn [fold_right]. rewrite IH. ring.
Qed.

Lemma value_snoc (a : string) (c : ascii) :
  value (a ++ String c "") = value a * 10 + val c.
Proof.
  rewrite !value_lvalue, rdigits_append.
  change (rdigits (String c "") ++ rdigits a)%list with (c :: rdigits a).
  rewrite lvalue_cons. lia.
Qed.

Lemma value_append (a b : string) :
  value (a ++ b) = value a * 10 ^ Z.of_nat (length b) + value b.
Proof.
  rewrite !value_lvalue, rdigits_append, lvalue_app, length_rdigits. lia.
Qed.

Lemma value_cons (c : ascii) (a : string) :
  value (String c a) = val c * 10 ^ Z.of_nat (length a) + value a.
Proof.
  change (String c a) with (String c "" ++ a).
  rewrite value_append. reflexivity.
Qed.

Lemma is_value_digits_ok (s : string) :
  is_value s = true <-> digits_ok (rdigits s).
Proof.
  unfold is_value, digits_ok, rdigits.
  rewrite forallb_forall, Forall_forall. split; intros H c Hc.
  - apply is_digit_range, H. now apply in_rev.
  - apply is_digit_range, H. now apply in_rev in Hc.
Qed.

Lemma is_value_append (a b : string) :
  is_value (a ++ b) = is_value a && is_value b.
Proof. unfold is_value. now rewrite chars_append, forallb_app. Qed.

Lemma is_value_cons (c : ascii) (a : string) :
  is_value (String c a) = is_digit c && is_value a.
Proof. reflexivity. Qed.

Lemma value_bound (s : string) :
  is_value s = true -> 0 <= value s < 10 ^ Z.of_nat (length s).
Proof.
  intros H. rewrite value_lvalue, <- length_rdigits.
  apply lvalue_bound. now apply is_value_digits_ok.
Qed.

(** Two digit lists of the same length that denote the same number are
    the same list. *)
Lemma lvalue_inj (a : list ascii) :
  forall b, digits_ok a -> digits_ok b -> List.length a = List.length b ->
            lvalue a = lvalue b -> a = b.
Proof.
  induction a as [| c a IH]; intros [| d b] Ha Hb Hl Hv;
    try discriminate; [reflexivity |].
  inversion Ha as [| ? ? Hc Ha']; inversion Hb as [| ? ? Hd Hb']; subst.
  rewrite !lvalue_cons in Hv.
  assert (val c = val d) by lia.
  f_equal; [now apply val_inj | apply IH; auto; lia].
Qed.

Lemma value_inj (a b : string) :
  is_value a = true -> is_value b = true -> length a = length b ->
  value a = value b -> a = b.
Proof.
  intros Ha Hb Hl Hv. apply rdigits_inj, lvalue_inj.
  - now apply is_value_digits_ok.
  - now apply is_value_digits_ok.
  - now rewrite !length_rdigits.
  - now rewrite <- !value_lvalue.
Qed.

Lemma is_value_replicate (k : nat) (c : ascii) :
  is_digit c = true -> is_value (replicate k c) = true.
Proof.
  intros H. induction k as [| k IH]; [reflexivity |].
  cbn [replicate]. rewrite is_value_cons, H, IH. reflexivity.
Qed.

Lemma value_zeros (k : nat) : value (replicate k "0") = 0.
Proof.
  induction k as [| k IH]; [reflexivity |].
  cbn [replicate]. rewrite value_cons, IH, val_char0. lia.
Qed.

Lemma value_nines (k : nat) : value (replicate k "9") = 10 ^ Z.of_nat k - 1.
Proof.
  induction k as [| k IH]; [reflexivity |].
  cbn [replicate].
  rewrite value_cons, IH, val_char9, length_replicate, pow10_S. lia.
Qed.

(** Canonical form read off the length and the number denoted. *)
Lemma canonical_spec (s : string) :
  canonical s = true <->
  is_value s = true /\
  (length s = 1%nat \/
   (1 < length s)%nat /\ 10 ^ (Z.of_nat (length s) - 1) <= value s).
Proof.
  unfold canonical. rewrite andb_true_iff.
  split; intros [V H]; split; try exact V.
  - destruct s as [| c rest]; [discriminate |].
    destruct rest as [| d rest]; [now left | right].
    rewrite orb_true_iff in H. destruct H as [H | H]; [| discriminate].
    rewrite eqb_char0 in H. apply negb_true_iff, Z.eqb_neq in H.
    rewrite is_value_cons, andb_true_iff in V. destruct V as [Vc Vr].
    apply is_digit_range in Vc. pose proof (value_bound _ Vr) as B.
    split; [simpl; lia |].
    rewrite value_cons.
    replace (Z.of_nat (length (String c (String d rest))) - 1)
      with (Z.of_nat (length (String d rest))) by (cbn [length]; lia).
    nia.
  - destruct s as [| c rest]; [simpl in H; lia |].
    destruct rest as [| d rest]; [now rewrite orb_true_r |].
    destruct H as [H | [_ H]]; [discriminate |].
    rewrite orb_true_iff; left.
    rewrite eqb_char0. apply negb_true_iff, Z.eqb_neq. intros E.
    rewrite is_value_cons, andb_true_iff in V. destruct V as [_ Vr].
    pose proof (value_bound _ Vr) as B.
    rewrite value_cons, E in H.
    replace (Z.of_nat (length (String c (String d rest))) - 1)
      with (Z.of_nat (length (String d rest))) in H by (cbn [length]; lia).
    lia.
Qed.

Lemma canonical_is_value (s : string) :
  canonical s = true -> is_value s = true.
Proof. intros H. now apply canonical_spec in H. Qed.

Lemma canonical_length (s : string) :
  canonical s = true -> (1 <= length s)%nat.
Proof. intros H. apply canonical_spec in H. lia. Qed.

(** A canonical string denotes at least [10^(length-1)], unless it is
    "0". *)
Lemma canonical_lower_bound (s : string) :
  canonical s = true -> s <> "0" ->
  10 ^ (Z.of_nat (length s) - 1) <= value s.
Proof.
  intros H N. unfold canonical in H. apply andb_true_iff in H.
  destruct H as [V H].
  destruct s as [| c rest]; [discriminate |].
  rewrite is_value_cons, andb_true_iff in V. destruct V as [Vc Vr].
  apply is_digit_range in Vc. pose proof (value_bound _ Vr) as B.
  rewrite value_cons.
  replace (Z.of_nat (length (String c rest)) - 1)
    with (Z.of_nat (length rest)) by (cbn [length]; lia).
  assert (val c <> 0).
  { intros E. rewrite eqb_char0, E in H. simpl in H.
    apply String.eqb_eq in H. subst rest.
    apply N. f_equal. apply val_inj. now rewrite E. }
  nia.
Qed.

Lemma canonical_zero (s : string) :
  canonical s = true -> value s = 0 -> s = "0".
Proof.
  intros H Z0. destruct (string_dec s "0") as [E | N]; [exact E |].
  pose proof (canonical_lower_bound s H N) as L.
  pose proof (canonical_length s H).
  assert (0 < 10 ^ (Z.of_nat (length s) - 1)) by (apply Z.pow_pos_nonneg; lia).
  lia.
Qed.

Lemma canonical_positive (s : string) :
  canonical s = true -> s <> "0" -> 1 <= value s.
Proof.
  intros H N. pose proof (canonical_lower_bound s H N).
  pose proof (canonical_length s H).
  assert (0 < 10 ^ (Z.of_nat (length s) - 1)) by (apply Z.pow_pos_nonneg; lia).
  lia.
Qed.

End Values.

(** * Addition *)

Section Addition.

Lemma extra_digit_cases (m : nat) (total : Z) :
  extra_digit m total = 1%nat /\ 10 ^ Z.of_nat m <= total \/
  extra_digit m total = 0%nat /\ total < 10 ^ Z.of_nat m.
Proof. unfold extra_digit. destruct (Z.leb_spec (10 ^ Z.of_nat m) total); auto. Qed.

Lemma lvalue_hd_tl (l : list ascii) : lvalue l = hdval l + 10 * lvalue (tl l).
Proof. destruct l; reflexivity. Qed.

Lemma hdval_range (l : list ascii) : digits_ok l -> 0 <= hdval l <= 9.
Proof. destruct 1; simpl; lia. Qed.

Lemma digits_ok_tl (l : list ascii) : digits_ok l -> digits_ok (tl l).
Proof. destruct 1; simpl; [constructor | assumption]. Qed.

Lemma add_loop_exit (sum : string) :
  add_loop ([], [], 0, sum) = sum.
Proof. rewrite add_loop_equation. reflexivity. Qed.

Lemma add_loop_step (xs ys : list ascii) (drem : Z) (sum : string) :
  nonempty xs || nonempty ys || (drem =? 1) = true ->
  0 <= drem + hdval xs + hdval ys < 20 ->
  add_loop (xs, ys, drem, sum) =
  add_loop (tl xs, tl ys, (drem + hdval xs + hdval ys) / 10,
            String (unval ((drem + hdval xs + hdval ys) mod 10)) sum).
Proof.
  intros C R. rewrite add_loop_equation.
  unfold add_cond. rewrite C. unfold add_body.
  replace (match ys with
           | [] => match xs with [] => drem | cx :: _ => drem + val cx end
           | cy :: _ =>
               match xs with [] => drem | cx :: _ => drem + val cx end + val cy
           end) with (drem + hdval xs + hdval ys)
    by (destruct xs, ys; simpl; lia).
  set (dsum := drem + hdval xs + hdval ys) in *.
  destruct (Z.geb_spec dsum 10) as [G | L].
  - replace (dsum / 10) with 1 by (apply Z.div_unique with (dsum - 10); lia).
    replace (dsum mod 10) with (dsum - 10)
      by (apply Z.mod_unique with 1; lia).
    reflexivity.
  - rewrite Z.div_small, Z.mod_small by lia. reflexivity.
Qed.

Lemma length_tl_max (xs ys : list ascii) :
  nonempty xs || nonempty ys = true ->
  Nat.max (List.length xs) (List.length ys) =
  S (Nat.max (List.length (tl xs)) (List.length (tl ys))).
Proof. destruct xs, ys; simpl; intros; try discriminate; lia. Qed.

(** The loop prepends to [sum] the digits of [x + y + drem]: as many as
    the longer operand has, and one more when the sum needs it. *)
Lemma add_loop_spec (n : nat) :
  forall xs ys drem sum,
    (List.length xs <= n)%nat -> (List.length ys <= n)%nat ->
    digits_ok xs -> digits_ok ys -> drem = 0 \/ drem = 1 ->
    exists t,
      add_loop (xs, ys, drem, sum) = t ++ sum /\
      is_value t = true /\
      value t = lvalue xs + lvalue ys + drem /\
      length t =
      (Nat.max (List.length xs) (List.length ys) +
       extra_digit (Nat.max (List.length xs) (List.length ys))
                   (lvalue xs + lvalue ys + drem))%nat.
Proof.
  assert (Base : forall drem sum, drem = 0 \/ drem = 1 ->
    exists t, add_loop ([], [], drem, sum) = t ++ sum /\
      is_value t = true /\ value t = lvalue [] + lvalue [] + drem /\
      length t = (0 + extra_digit 0 (lvalue [] + lvalue [] + drem))%nat).
  { intros drem sum [-> | ->].
    - exists "". rewrite add_loop_exit. repeat split.
    - exists "1". rewrite add_loop_step by (simpl; lia).
      simpl. rewrite add_loop_exit. repeat split. }
  induction n as [| n IH]; intros xs ys drem sum Lx Ly Dx Dy Hd.
  - destruct xs; [| simpl in Lx; lia]. destruct ys; [| simpl in Ly; lia].
    apply Base, Hd.
  - destruct (nonempty xs || nonempty ys) eqn:NE.
    2:{ destruct xs; [| discriminate]. destruct ys; [| discriminate].
        apply Base, Hd. }
    pose proof (hdval_range xs Dx) as Rx. pose proof (hdval_range ys Dy) as Ry.
    rewrite add_loop_step by (rewrite ?NE; simpl; lia).
    set (dsum := drem + hdval xs + hdval ys) in *.
    assert (Rd : 0 <= dsum <= 19) by (unfold dsum; lia).
    assert (Rm : 0 <= dsum mod 10 <= 9) by (pose proof (Z.mod_pos_bound dsum 10); lia).
    assert (Rq : dsum / 10 = 0 \/ dsum / 10 = 1).
    { pose proof (Z.div_mod dsum 10). lia. }
    destruct (IH (tl xs) (tl ys) (dsum / 10)
                 (String (unval (dsum mod 10)) sum))
      as (t & Et & Vt & Nt & Lt);
      try (apply digits_ok_tl; assumption); try exact Rq;
      try (destruct xs; simpl in *; lia); try (destruct ys; simpl in *; lia).
    exists (t ++ String (unval (dsum mod 10)) "").
    assert (Tot : lvalue xs + lvalue ys + drem =
                  10 * (lvalue (tl xs) + lvalue (tl ys) + dsum / 10)
                  + dsum mod 10).
    { rewrite (lvalue_hd_tl xs), (lvalue_hd_tl ys).
      pose proof (Z.div_mod dsum 10). unfold dsum in *. lia. }
    repeat split.
    + rewrite Et. apply append_snoc.
    + rewrite is_value_append, Vt, is_value_cons.
      change (is_value "") with true. rewrite andb_true_r. cbn [andb].
      apply is_digit_range. now rewrite val_unval.
    + rewrite value_snoc, Nt, val_unval by exact Rm. lia.
    + rewrite length_append, Lt, (length_tl_max xs ys NE).
      set (m := Nat.max (List.length (tl xs)) (List.length (tl ys))).
      rewrite Tot.
      set (total := lvalue (tl xs) + lvalue (tl ys) + dsum / 10).
      cbn [length]. unfold extra_digit. rewrite pow10_S.
      destruct (Z.leb_spec (10 ^ Z.of_nat m) total);
        destruct (Z.leb_spec (10 * 10 ^ Z.of_nat m) (10 * total + dsum mod 10));
        lia.
Qed.

(** What [add] returns on two digit strings. *)
Lemma add_spec (a b : Num) :
  is_value (digits a) = true -> is_value (digits b) = true ->
  is_value (digits (add a b)) = true /\
  value (digits (add a b)) = value (digits a) + value (digits b) /\
  length (digits (add a b)) =
  (Nat.max (length (digits a)) (length (digits b)) +
   extra_digit (Nat.max (length (digits a)) (length (digits b)))
               (value (digits a) + value (digits b)))%nat.
Proof.
  intros Va Vb. apply is_value_digits_ok in Va, Vb.
  unfold add, order_by_length.
  destruct (length (digits b) <=? length (digits a))%nat eqn:E.
  - destruct (add_loop_spec (length (digits a) + length (digits b))
                (rdigits (digits a)) (rdigits (digits b)) 0 "")
      as (t & Et & Vt & Nt & Lt);
      rewrite ?length_rdigits; auto; try lia.
    cbn [digits]. rewrite Et, append_nil_r.
    rewrite <- !value_lvalue, Z.add_0_r in Nt.
    rewrite !length_rdigits, <- !value_lvalue, Z.add_0_r in Lt.
    auto.
  - destruct (add_loop_spec (length (digits a) + length (digits b))
                (rdigits (digits b)) (rdigits (digits a)) 0 "")
      as (t & Et & Vt & Nt & Lt);
      rewrite ?length_rdigits; auto; try lia.
    cbn [digits]. rewrite Et, append_nil_r.
    rewrite <- !value_lvalue, Z.add_0_r in Nt.
    rewrite !length_rdigits, <- !value_lvalue, Z.add_0_r in Lt.
    rewrite (Nat.max_comm (length (digits a))), (Z.add_comm (value (digits a))).
    auto.
Qed.

Lemma add_cond_swap (st : add_state) :
  add_cond (swap_operands st) = add_cond st.
Proof.
  destruct st as [[[xs ys] drem] sum]. simpl.
  now rewrite (orb_comm (nonempty ys)).
Qed.

Lemma add_body_swap (st : add_state) :
  add_body (swap_operands st) = swap_operands (add_body st).
Proof.
  destruct st as [[[xs ys] drem] sum]. unfold swap_operands, add_body.
  replace (match xs with
           | [] => match ys with [] => drem | cx :: _ => drem + val cx end
           | cy :: _ =>
               match ys with [] => drem | cx :: _ => drem + val cx end + val cy
           end)
    with (match ys with
          | [] => match xs with [] => drem | cx :: _ => drem + val cx end
          | cy :: _ =>
              match xs with [] => drem | cx :: _ => drem + val cx end + val cy
          end) by (destruct xs, ys; lia).
  destruct (_ >=? 10); reflexivity.
Qed.

Lemma add_loop_swap (st : add_state) :
  add_loop st = add_loop (swap_operands st).
Proof.
  functional induction (add_loop st) as [st C IH | st C xs ys drem sum E].
  - rewrite (add_loop_equation (swap_operands st)), add_cond_swap, C.
    now rewrite add_body_swap.
  - rewrite (add_loop_equation (swap_operands (xs, ys, drem, sum))).
    rewrite add_cond_swap, C. reflexivity.
Qed.

Lemma Num_eq (a b : Num) : digits a = digits b -> a = b.
Proof. destruct a, b. simpl. now intros ->. Qed.

Lemma add_comm (m n : Num) : add m n = add n m.
Proof.
  unfold add, order_by_length.
  destruct (Nat.leb_spec (length (digits n)) (length (digits m)));
    destruct (Nat.leb_spec (length (digits m)) (length (digits n)));
    try reflexivity; try lia.
  f_equal. apply (add_loop_swap (rdigits (digits m), rdigits (digits n), 0, "")).
Qed.

End Addition.

(** * Multiplication *)

Section Multiplication.

Lemma zero_fill_spec (k : nat) :
  forall dtotal, zero_fill k dtotal = replicate k "0" ++ dtotal.
Proof.
  induction k as [| k IH]; intros dtotal; [reflexivity |].
  cbn [zero_fill]. rewrite IH, append_snoc, replicate_snoc. reflexivity.
Qed.

(** The inner loop writes the low [length x] digits of
    [x * cy + drem] in front of [dtotal] and leaves the rest in [drem]. *)
Lemma digit_products_spec (cy : ascii) (xs : list ascii) :
  forall drem dtotal,
    digits_ok xs -> 0 <= val cy <= 9 -> 0 <= drem <= 8 ->
    exists t drem',
      digit_products xs cy drem dtotal = (drem', t ++ dtotal) /\
      is_value t = true /\
      length t = List.length xs /\
      0 <= drem' <= 8 /\
      value t + drem' * 10 ^ Z.of_nat (List.length xs) =
      lvalue xs * val cy + drem.
Proof.
  induction xs as [| cx xs IH]; intros drem dtotal Dx Dy Dr.
  - exists "", drem. repeat split; try lia. simpl. lia.
  - inversion Dx as [| ? ? Hc Dx']; subst.
    cbn [digit_products].
    set (dprod := val cx * val cy + drem).
    assert (Rp : 0 <= dprod <= 89) by (unfold dprod; nia).
    assert (Rm : 0 <= dprod mod 10 <= 9)
      by (pose proof (Z.mod_pos_bound dprod 10); lia).
    assert (Rq : 0 <= dprod / 10 <= 8).
    { pose proof (Z.div_mod dprod 10). lia. }
    assert (E : (if dprod >=? 10
                 then (dprod - Z.quot dprod 10 * 10, Z.quot dprod 10)
                 else (dprod, 0)) = (dprod mod 10, dprod / 10)).
    { destruct (Z.geb_spec dprod 10) as [G | L].
      - rewrite Z.quot_div_nonneg by lia.
        f_equal. pose proof (Z.div_mod dprod 10). lia.
      - rewrite Z.mod_small, Z.div_small by lia. reflexivity. }
    rewrite E.
    destruct (IH (dprod / 10) (String (unval (dprod mod 10)) dtotal)
                Dx' Dy Rq) as (t & drem' & Et & Vt & Lt & Rr & Nt).
    exists (t ++ String (unval (dprod mod 10)) ""), drem'.
    repeat split; try lia.
    + rewrite Et. f_equal. apply append_snoc.
    + rewrite is_value_append, Vt, is_value_cons.
      change (is_value "") with true. rewrite andb_true_r. cbn [andb].
      apply is_digit_range. now rewrite val_unval.
    + rewrite length_append, Lt. cbn [length List.length]. lia.
    + rewrite value_snoc, val_unval by exact Rm.
      cbn [List.length]. rewrite pow10_S, lvalue_cons.
      pose proof (Z.div_mod dprod 10). unfold dprod in *. nia.
Qed.

(** One partial product: [x] times the digit [cy], shifted by
    [zeroes] places. *)
Lemma partial_product_spec (x : Num) (cy : ascii) (zeroes : nat) :
  is_value (digits x) = true -> 0 <= val cy <= 9 ->
  is_value (partial_product x cy zeroes) = true /\
  value (partial_product x cy zeroes) =
  value (digits x) * val cy * 10 ^ Z.of_nat zeroes /\
  length (partial_product x cy zeroes) =
  (length (digits x) + zeroes +
   extra_digit (length (digits x)) (value (digits x) * val cy))%nat.
Proof.
  intros Vx Dy. unfold partial_product.
  pose proof (value_bound _ Vx) as Bx.
  apply is_value_digits_ok in Vx.
  destruct (digit_products_spec cy (rdigits (digits x)) 0
              (zero_fill zeroes "") Vx Dy ltac:(lia))
    as (t & drem' & Et & Vt & Lt & Rr & Nt).
  rewrite Et, zero_fill_spec, append_nil_r.
  rewrite length_rdigits in *. rewrite <- value_lvalue, Z.add_0_r in Nt.
  pose proof (value_bound _ Vt) as Bt. rewrite Lt in Bt.
  assert (Vz : is_value (t ++ replicate zeroes "0") = true).
  { rewrite is_value_append, Vt. now apply is_value_replicate. }
  assert (Nz : value (t ++ replicate zeroes "0") =
               value t * 10 ^ Z.of_nat zeroes).
  { rewrite value_append, value_zeros, length_replicate. lia. }
  assert (Lz : length (t ++ replicate zeroes "0") =
               (length (digits x) + zeroes)%nat).
  { now rewrite length_append, length_replicate, Lt. }
  unfold extra_digit. rewrite <- Nt.
  pose proof (pow10_pos (length (digits x))) as Px.
  destruct (Z.gtb_spec drem' 0) as [G | L].
  - repeat split.
    + rewrite is_value_cons, Vz, andb_true_r.
      apply is_digit_range. rewrite val_unval; lia.
    + rewrite value_cons, Nz, Lz, val_unval, pow10_add by lia. ring.
    + cbn [length]. rewrite Lz.
      destruct (Z.leb_spec (10 ^ Z.of_nat (length (digits x)))
                           (value t + drem' * 10 ^ Z.of_nat (length (digits x))));
        [lia | nia].
  - assert (drem' = 0) by lia. subst drem'.
    repeat split; auto.
    + rewrite Nz. ring.
    + rewrite Lz.
      destruct (Z.leb_spec (10 ^ Z.of_nat (length (digits x)))
                           (value t + 0 * 10 ^ Z.of_nat (length (digits x))));
        lia.
Qed.

Variable x : Num.
Hypothesis Vx : is_value (digits x) = true.
Hypothesis Lx : (1 <= length (digits x))%nat.

(** One pass of the outer loop.  [product] holds [x] times the low
    [zeroes] digits of [y]. *)
Lemma multiply_pass (cy : ascii) (zeroes : nat) (product : Num) :
  0 <= val cy <= 9 ->
  is_value (digits product) = true ->
  (length (digits product) <= length (digits x) + zeroes)%nat ->
  value (digits product) <= value (digits x) * (10 ^ Z.of_nat zeroes - 1) ->
  let product' := add product (mkNum (partial_product x cy zeroes)) in
  is_value (digits product') = true /\
  value (digits product') =
  value (digits product) + value (digits x) * val cy * 10 ^ Z.of_nat zeroes /\
  length (digits product') =
  (length (digits x) + zeroes +
   extra_digit (length (digits x) + zeroes) (value (digits product')))%nat /\
  value (digits product') <=
  value (digits x) * (10 ^ Z.of_nat (S zeroes) - 1).
Proof.
  intros Dy Vp Lp Bp product'.
  destruct (partial_product_spec x cy zeroes Vx Dy) as (Vq & Nq & Lq).
  destruct (add_spec product (mkNum (partial_product x cy zeroes)) Vp Vq)
    as (Vr & Nr & Lr).
  fold product' in Vr, Nr, Lr. cbn [digits] in Nr, Lr.
  rewrite Nq in Nr. rewrite Lq in Lr.
  pose proof (value_bound _ Vx) as Bx. pose proof (value_bound _ Vp) as Bq.
  pose proof (pow10_pos (length (digits x))) as Px.
  pose proof (pow10_pos zeroes) as Pz.
  assert (Up : value (digits product') <=
               value (digits x) * (10 ^ Z.of_nat (S zeroes) - 1)).
  { rewrite Nr, pow10_S. nia. }
  repeat split; auto.
  rewrite Lr, Nq, <- Nr. clear Lr.
  rewrite pow10_S in Up.
  destruct (extra_digit_cases (length (digits x)) (value (digits x) * val cy))
    as [[-> C] | [-> C]].
  - replace (Nat.max (length (digits product))
                     (length (digits x) + zeroes + 1))
      with (S (length (digits x) + zeroes)) by lia.
    destruct (extra_digit_cases (S (length (digits x) + zeroes))
                (value (digits product'))) as [[-> C1] | [-> C1]];
      destruct (extra_digit_cases (length (digits x) + zeroes)
                  (value (digits product'))) as [[-> C2] | [-> C2]];
      rewrite ?pow10_S, ?pow10_add in *; try lia; nia.
  - replace (Nat.max (length (digits product))
                     (length (digits x) + zeroes + 0))
      with (length (digits x) + zeroes)%nat by lia.
    reflexivity.
Qed.

(** The outer loop, from any pass on. *)
Lemma multiply_loop_spec (ys : list ascii) :
  forall zeroes product,
    digits_ok ys ->
    is_value (digits product) = true ->
    (length (digits product) <= length (digits x) + zeroes)%nat ->
    value (digits product) <= value (digits x) * (10 ^ Z.of_nat zeroes - 1) ->
    let r := multiply_loop x ys zeroes product in
    is_value (digits r) = true /\
    value (digits r) =
    value (digits product) + value (digits x) * lvalue ys * 10 ^ Z.of_nat zeroes /\
    (ys <> [] ->
     length (digits r) =
     (length (digits x) + zeroes + List.length ys - 1 +
      extra_digit (length (digits x) + zeroes + List.length ys - 1)
                  (value (digits r)))%nat).
Proof.
  induction ys as [| cy ys IH]; intros zeroes product Dy Vp Lp Bp r.
  - subst r. cbn [multiply_loop]. repeat split; auto.
    + simpl. lia.
    + intros N. now contradiction N.
  - inversion Dy as [| ? ? Hc Dy']; subst.
    destruct (multiply_pass cy zeroes product Hc Vp Lp Bp)
      as (Vq & Nq & Lq & Bq).
    set (product' := add product (mkNum (partial_product x cy zeroes))) in *.
    assert (Lq' : (length (digits product') <= length (digits x) + S zeroes)%nat).
    { rewrite Lq. unfold extra_digit. destruct (_ <=? _); lia. }
    destruct (IH (S zeroes) product' Dy' Vq Lq' Bq) as (Vr & Nr & Lr).
    change (multiply_loop x ys (S zeroes) product') with r in Vr, Nr, Lr.
    repeat split; auto.
    + rewrite Nr, Nq, lvalue_cons, pow10_S. ring.
    + intros _. destruct ys as [| cy' ys'].
      * subst r. cbn [multiply_loop List.length].
        replace (length (digits x) + zeroes + 1 - 1)%nat
          with (length (digits x) + zeroes)%nat by lia.
        exact Lq.
      * rewrite Lr by discriminate. cbn [List.length].
        replace (length (digits x) + S zeroes + S (List.length ys') - 1)%nat
          with (length (digits x) + zeroes + S (S (List.length ys')) - 1)%nat
          by lia.
        reflexivity.
Qed.

End Multiplication.

Section Products.

(** The general algorithm on operands already ordered by length. *)
Lemma multiply_ordered (x y : Num) :
  is_value (digits x) = true -> is_value (digits y) = true ->
  (1 <= length (digits y) <= length (digits x))%nat ->
  let r := multiply_loop x (rdigits (digits y)) 0 (mkNum "0") in
  is_value (digits r) = true /\
  value (digits r) = value (digits x) * value (digits y) /\
  length (digits r) =
  (length (digits x) + length (digits y) - 1 +
   extra_digit (length (digits x) + length (digits y) - 1)
               (value (digits r)))%nat.
Proof.
  intros Vx Vy L r.
  destruct (multiply_loop_spec x Vx ltac:(lia) (rdigits (digits y)) 0%nat
              (mkNum "0")) as (Vr & Nr & Lr).
  - now apply is_value_digits_ok.
  - reflexivity.
  - cbn [digits length]. lia.
  - change (0 <= value (digits x) * 0). lia.
  - fold r in Vr, Nr, Lr. repeat split; auto.
    + rewrite Nr, <- value_lvalue. change (value (digits (mkNum "0"))) with 0.
      change (10 ^ Z.of_nat 0) with 1. ring.
    + rewrite Lr, length_rdigits.
      * now rewrite Nat.add_0_r.
      * intros E. apply (f_equal (@List.length ascii)) in E.
        rewrite length_rdigits in E. simpl in E. lia.
Qed.

Lemma empty_string (s : string) : length s = 0%nat -> s = "".
Proof. destruct s; [reflexivity | discriminate]. Qed.

(** The short-circuit at the head of [multiply]. *)
Lemma multiply_short (m n : Num) :
  digits m = "0" \/ digits n = "0" -> multiply m n = mkNum "0".
Proof.
  unfold multiply. intros [E | E]; rewrite E.
  - reflexivity.
  - now rewrite String.eqb_refl, orb_true_r.
Qed.

(** [multiply] on two digit strings returns a digit string that denotes
    the product. *)
Lemma multiply_spec (m n : Num) :
  is_value (digits m) = true -> is_value (digits n) = true ->
  is_value (digits (multiply m n)) = true /\
  value (digits (multiply m n)) = value (digits m) * value (digits n).
Proof.
  intros Vm Vn.
  destruct (String.eqb_spec (digits m) "0") as [Em | Nm].
  { rewrite multiply_short by auto. rewrite Em. cbn [digits].
    change (value "0") with 0. split; [reflexivity | lia]. }
  destruct (String.eqb_spec (digits n) "0") as [En | Nn].
  { rewrite multiply_short by auto. rewrite En. cbn [digits].
    change (value "0") with 0. split; [reflexivity | lia]. }
  unfold multiply.
  apply String.eqb_neq in Nm, Nn. rewrite Nm, Nn. cbn [orb].
  unfold order_by_length.
  destruct (Nat.leb_spec (length (digits n)) (length (digits m))) as [L | L].
  - destruct (Nat.eq_dec (length (digits n)) 0) as [Z0 | NZ].
    + rewrite (empty_string _ Z0). cbn [rdigits list_ascii_of_string rev multiply_loop digits].
      change (value "0") with 0. change (value "") with 0.
      split; [reflexivity | lia].
    + destruct (multiply_ordered m n Vm Vn ltac:(lia)) as (V & N & _). auto.
  - destruct (Nat.eq_dec (length (digits m)) 0) as [Z0 | NZ].
    + rewrite (empty_string _ Z0). cbn [rdigits list_ascii_of_string rev multiply_loop digits].
      change (value "0") with 0. change (value "") with 0.
      split; [reflexivity | lia].
    + destruct (multiply_ordered n m Vn Vm ltac:(lia)) as (V & N & _).
      rewrite N. split; [exact V | ring].
Qed.

(** The number of digits [multiply] returns for non-empty operands
    other than "0". *)
Lemma multiply_length (m n : Num) :
  is_value (digits m) = true -> is_value (digits n) = true ->
  (1 <= length (digits m))%nat -> (1 <= length (digits n))%nat ->
  digits m <> "0" -> digits n <> "0" ->
  length (digits (multiply m n)) =
  (length (digits m) + length (digits n) - 1 +
   extra_digit (length (digits m) + length (digits n) - 1)
               (value (digits m) * value (digits n)))%nat.
Proof.
  intros Vm Vn Lm Ln Nm Nn. unfold multiply.
  apply String.eqb_neq in Nm, Nn. rewrite Nm, Nn. cbn [orb].
  unfold order_by_length.
  destruct (Nat.leb_spec (length (digits n)) (length (digits m))) as [L | L].
  - destruct (multiply_ordered m n Vm Vn ltac:(lia)) as (_ & N & E).
    now rewrite E, N.
  - destruct (multiply_ordered n m Vn Vm ltac:(lia)) as (_ & N & E).
    rewrite E, N.
    rewrite (Nat.add_comm (length (digits n))), (Z.mul_comm (value (digits n))).
    reflexivity.
Qed.

Lemma multiply_comm (m n : Num) :
  is_value (digits m) = true -> is_value (digits n) = true ->
  multiply m n = multiply n m.
Proof.
  intros Vm Vn.
  destruct (String.eqb_spec (digits m) "0") as [Em | Nm].
  { now rewrite !multiply_short by auto. }
  destruct (String.eqb_spec (digits n) "0") as [En | Nn].
  { now rewrite !multiply_short by auto. }
  destruct (Nat.eq_dec (length (digits m)) (length (digits n))) as [E | NE].
  - destruct (Nat.eq_dec (length (digits m)) 0) as [Z0 | NZ].
    + assert (Em : digits m = "") by now apply empty_string.
      assert (En : digits n = "") by (apply empty_string; lia).
      unfold multiply, order_by_length. rewrite Em, En.
      cbn [length Nat.leb String.eqb orb]. now rewrite Em, En.
    + apply Num_eq.
      destruct (multiply_spec m n Vm Vn) as (V1 & N1).
      destruct (multiply_spec n m Vn Vm) as (V2 & N2).
      apply value_inj; auto.
      * rewrite !multiply_length by (auto; lia).
        rewrite (Nat.add_comm (length (digits n))),
                (Z.mul_comm (value (digits n))).
        reflexivity.
      * rewrite N1, N2. ring.
  - unfold multiply, order_by_length.
    apply String.eqb_neq in Nm, Nn. rewrite Nm, Nn. cbn [orb].
    destruct (Nat.leb_spec (length (digits n)) (length (digits m)));
      destruct (Nat.leb_spec (length (digits m)) (length (digits n)));
      try reflexivity; lia.
Qed.

End Products.

(** * Decrement *)

Section Decrement.

Lemma rdigits_unrev (ds : list ascii) : rdigits (unrev ds) = ds.
Proof.
  unfold rdigits, unrev.
  now rewrite list_ascii_of_string_of_list_ascii, rev_involutive.
Qed.

Lemma unrev_cons (c : ascii) (ds : list ascii) :
  unrev (c :: ds) = unrev ds ++ String c "".
Proof.
  apply rdigits_inj. rewrite rdigits_append, !rdigits_unrev. reflexivity.
Qed.

Lemma length_unrev (ds : list ascii) : length (unrev ds) = List.length ds.
Proof. now rewrite <- length_rdigits, rdigits_unrev. Qed.

Lemma value_unrev (ds : list ascii) : value (unrev ds) = lvalue ds.
Proof. now rewrite value_lvalue, rdigits_unrev. Qed.

Lemma is_value_unrev (ds : list ascii) :
  digits_ok ds -> is_value (unrev ds) = true.
Proof. intros H. apply is_value_digits_ok. now rewrite rdigits_unrev. Qed.

Variable n : Num.

(** Once the borrow is absorbed the remaining digits are copied. *)
Lemma decrement_loop_copy (ds : list ascii) :
  forall res, decrement_loop n ds false res = unrev ds ++ res.
Proof.
  induction ds as [| c ds IH]; intros res; [reflexivity |].
  cbn [decrement_loop]. rewrite IH, unrev_cons. apply append_snoc.
Qed.

(** While the borrow is pending, the digits already written are all
    "9" and stand for as many "0" digits of the operand. *)
Lemma decrement_loop_spec (ds : list ascii) :
  forall k,
    digits_ok ds -> ds <> [] ->
    10 ^ (Z.of_nat (List.length ds) - 1) <= lvalue ds ->
    length (digits n) = (List.length ds + k)%nat ->
    let r := decrement_loop n ds true (replicate k "9") in
    canonical r = true /\
    value r = lvalue ds * 10 ^ Z.of_nat k - 1.
Proof.
  induction ds as [| c ds IH]; intros k D NE Low Len r; [congruence |].
  inversion D as [| ? ? Hc D']; subst.
  pose proof (pow10_pos k) as Pk.
  pose proof (lvalue_bound ds D') as Bd.
  rewrite lvalue_cons in *. cbn [List.length] in Low, Len.
  replace (Z.of_nat (S (List.length ds)) - 1)
    with (Z.of_nat (List.length ds)) in Low by lia.
  subst r. cbn [decrement_loop].
  destruct ((List.length ds =? 0)%nat && (c =? "1")%char
            && (1 <? length (digits n))%nat) eqn:Brk.
  - (* break at the leading "1" of a power of ten *)
    apply andb_true_iff in Brk. destruct Brk as [Brk B3].
    apply andb_true_iff in Brk. destruct Brk as [B1 B2].
    apply Nat.eqb_eq in B1. apply Nat.ltb_lt in B3.
    rewrite eqb_char1 in B2. apply Z.eqb_eq in B2.
    destruct ds; [| discriminate]. cbn [lvalue fold_right].
    rewrite value_nines. split; [| lia].
    apply canonical_spec. rewrite length_replicate, value_nines.
    split; [now apply is_value_replicate |].
    simpl in Len. destruct k as [| [| k]]; [lia | now left | right].
    split; [lia |].
    replace (Z.of_nat (S (S k)) - 1) with (Z.of_nat (S k)) by lia.
    rewrite (pow10_S (S k)). pose proof (pow10_pos (S k)). lia.
  - destruct (c =? "0")%char eqn:C0.
    + (* a "0" becomes "9" and the borrow goes on *)
      rewrite eqb_char0 in C0. apply Z.eqb_eq in C0.
      destruct ds as [| d ds'].
      { simpl in Low. rewrite C0 in Low. cbn in Low. lia. }
      destruct (IH (S k)) as (Cr & Nr); auto; try discriminate.
      * cbn [List.length] in *.
        replace (Z.of_nat (S (List.length ds')) - 1)
          with (Z.of_nat (List.length ds')) by lia.
        rewrite pow10_S in Low. lia.
      * rewrite Len. lia.
      * cbn [replicate] in Cr, Nr. split; [exact Cr |].
        rewrite Nr, pow10_S, C0. ring.
    + (* the first non-zero digit absorbs the borrow *)
      rewrite eqb_char0 in C0. apply Z.eqb_neq in C0.
      rewrite decrement_loop_copy.
      set (low := String (unval (val c - 1)) (replicate k "9")).
      assert (Vl : is_value low = true).
      { unfold low. rewrite is_value_cons, is_value_replicate by reflexivity.
        rewrite andb_true_r. apply is_digit_range. rewrite val_unval; lia. }
      assert (Ll : length low = S k).
      { unfold low. cbn [length]. now rewrite length_replicate. }
      assert (Nl : value low = val c * 10 ^ Z.of_nat k - 1).
      { unfold low. rewrite value_cons, value_nines, length_replicate.
        rewrite val_unval by lia. ring. }
      assert (Nr : value (unrev ds ++ low) =
                   (val c + 10 * lvalue ds) * 10 ^ Z.of_nat k - 1).
      { rewrite value_append, value_unrev, Ll, Nl, pow10_S. ring. }
      split; [| exact Nr].
      apply canonical_spec. rewrite Nr, length_append, length_unrev, Ll.
      split.
      { rewrite is_value_append, Vl, andb_true_r. now apply is_value_unrev. }
      destruct ds as [| d ds'].
      * cbn [List.length lvalue fold_right] in *.
        destruct k as [| k]; [now left | right]. split; [lia |].
        replace (Z.of_nat (0 + S (S k)) - 1) with (Z.of_nat (S k)) by lia.
        assert (val c <> 1).
        { intros E. rewrite !andb_false_iff in Brk.
          destruct Brk as [[B | B] | B].
          - discriminate.
          - rewrite eqb_char1, E in B. discriminate.
          - apply Nat.ltb_ge in B. lia. }
        pose proof (pow10_pos (S k)). nia.
      * right. cbn [List.length] in *. split; [lia |].
        replace (Z.of_nat (S (List.length ds') + S k) - 1)
          with (Z.of_nat (S (List.length ds') + k)) by lia.
        rewrite pow10_add.
        set (top := val c + 10 * lvalue (d :: ds')) in *.
        assert (10 ^ Z.of_nat (S (List.length ds')) + 1 <= top).
        { rewrite pow10_S in *. unfold top. lia. }
        pose proof (pow10_pos (S (List.length ds'))). nia.
Qed.

(** Decrementing a canonical value other than "0". *)
Lemma decrement_spec :
  canonical (digits n) = true -> digits n <> "0" ->
  canonical (digits (decrement n)) = true /\
  value (digits (decrement n)) = value (digits n) - 1.
Proof.
  intros C NZ.
  pose proof (canonical_lower_bound _ C NZ) as Low.
  pose proof (canonical_length _ C) as Len.
  destruct (decrement_loop_spec (rdigits (digits n)) 0%nat) as (Cr & Nr).
  - apply is_value_digits_ok. now apply canonical_is_value.
  - intros E. apply (f_equal (@List.length ascii)) in E.
    rewrite length_rdigits in E. simpl in E. lia.
  - now rewrite length_rdigits, <- value_lvalue.
  - rewrite length_rdigits. lia.
  - unfold decrement. cbn [digits]. cbn [replicate] in Cr, Nr.
    split; [exact Cr |]. rewrite Nr, <- value_lvalue.
    change (10 ^ Z.of_nat 0) with 1. lia.
Qed.

End Decrement.

(** * Comparison *)

Section Comparison.

(** On digit strings of one length the loop decides the numeric
    order. *)
Lemma compare_loop_spec (a : string) :
  forall b,
    is_value a = true -> is_value b = true -> length a = length b ->
    compare_loop (list_ascii_of_string a) (list_ascii_of_string b) =
    ordering (value a ?= value b).
Proof.
  induction a as [| c a IH]; intros [| d b] Va Vb L; try discriminate;
    [reflexivity |].
  rewrite is_value_cons, andb_true_iff in Va, Vb.
  destruct Va as [Dc Va], Vb as [Dd Vb].
  apply is_digit_range in Dc, Dd. injection L as L.
  pose proof (value_bound _ Va) as Ba. pose proof (value_bound _ Vb) as Bb.
  rewrite <- L in Bb. pose proof (pow10_pos (length a)) as Pa.
  cbn [list_ascii_of_string compare_loop]. rewrite !value_cons, <- L.
  destruct (Z.gtb_spec (val c) (val d)) as [G | NG].
  { replace (_ ?= _) with Gt; [reflexivity |].
    symmetry. apply Z.compare_gt_iff. nia. }
  destruct (Z.ltb_spec (val c) (val d)) as [Lt | NL].
  { replace (_ ?= _) with Datatypes.Lt; [reflexivity |].
    symmetry. apply Z.compare_lt_iff. nia. }
  assert (E : val c = val d) by lia. rewrite E, (IH b Va Vb L).
  f_equal. symmetry. apply Z.add_compare_mono_l.
Qed.

Lemma compare_spec (x y : Num) :
  canonical (digits x) = true -> canonical (digits y) = true ->
  compare x y = ordering (value (digits x) ?= value (digits y)).
Proof.
  intros Cx Cy. unfold compare.
  pose proof (canonical_length _ Cx) as Lx.
  pose proof (canonical_length _ Cy) as Ly.
  pose proof (value_bound _ (canonical_is_value _ Cx)) as Bx.
  pose proof (value_bound _ (canonical_is_value _ Cy)) as By.
  destruct (Nat.ltb_spec (length (digits y)) (length (digits x))) as [G | NG].
  { replace (_ ?= _) with Gt; [reflexivity |].
    symmetry. apply Z.compare_gt_iff.
    assert (NZ : digits x <> "0") by (intros E; rewrite E in G; simpl in G; lia).
    pose proof (canonical_lower_bound _ Cx NZ) as Low.
    replace (Z.of_nat (length (digits x)) - 1)
      with (Z.of_nat (length (digits x) - 1)) in Low by lia.
    pose proof (pow10_le (length (digits y)) (length (digits x) - 1)
                  ltac:(lia)).
    lia. }
  destruct (Nat.ltb_spec (length (digits x)) (length (digits y))) as [L | NL].
  { replace (_ ?= _) with Lt; [reflexivity |].
    symmetry. apply Z.compare_lt_iff.
    assert (NZ : digits y <> "0") by (intros E; rewrite E in L; simpl in L; lia).
    pose proof (canonical_lower_bound _ Cy NZ) as Low.
    replace (Z.of_nat (length (digits y)) - 1)
      with (Z.of_nat (length (digits y) - 1)) in Low by lia.
    pose proof (pow10_le (length (digits x)) (length (digits y) - 1)
                  ltac:(lia)).
    lia. }
  apply compare_loop_spec; try (now apply canonical_is_value). lia.
Qed.

End Comparison.

(** * Scientific notation *)

Section Scientific.

Lemma substring_beyond (v : string) :
  forall i k, (length v <= i)%nat -> substring i k v = "".
Proof.
  induction v as [| c v IH]; intros i k L.
  - destruct i, k; reflexivity.
  - destruct i as [| i]; [simpl in L; lia |].
    cbn [substring]. apply IH. simpl in L. lia.
Qed.

Lemma substring_step (v : string) :
  forall i k, (i < length v)%nat ->
    exists c, get i v = Some c /\
              substring i (S k) v = String c (substring (S i) k v).
Proof.
  induction v as [| c v IH]; intros i k L; [simpl in L; lia |].
  destruct i as [| i].
  - exists c. split; reflexivity.
  - destruct (IH i k) as (d & G & E); [simpl in L; lia |].
    exists d. split; [exact G |]. cbn [substring] in *. exact E.
Qed.

Variable n : Num.
Hypothesis nonempty_digits : digits n <> "".

Lemma length_minus_1_nonempty :
  length_minus_1 (digits n) = Z.of_nat (length (digits n)) - 1.
Proof.
  unfold length_minus_1. destruct (digits n) eqn:E; [congruence |].
  cbn [length]. lia.
Qed.

(** The loop appends the digits from index [i] on, then "0"s. *)
Lemma scino_loop_spec (k : nat) :
  forall i res,
    scino_loop n k (Z.of_nat i) res =
    res ++ pad_right (substring i k (digits n)) k.
Proof.
  induction k as [| k IH]; intros i res.
  - cbn [scino_loop]. unfold pad_right.
    replace (substring i 0 (digits n)) with ""
      by (clear; generalize i; induction (digits n); intros [| j];
          simpl; auto).
    now rewrite append_nil_r.
  - cbn [scino_loop]. rewrite length_minus_1_nonempty.
    replace (Z.of_nat i + 1) with (Z.of_nat (S i)) by lia.
    destruct (Z.gtb_spec (Z.of_nat i) (Z.of_nat (length (digits n)) - 1))
      as [G | NG].
    + rewrite IH. unfold put, pad_right.
      rewrite !substring_beyond by lia.
      cbn [length append]. rewrite !Nat.sub_0_r, append_assoc.
      reflexivity.
    + destruct (substring_step (digits n) i k ltac:(lia)) as (c & Gc & E).
      rewrite IH. unfold put, pad_right, char_at.
      rewrite Nat2Z.id, Gc, E, append_assoc. reflexivity.
Qed.

Lemma scino_spec (sigfigs : Z) :
  1 <= sigfigs -> scino n sigfigs = scientific (digits n) sigfigs.
Proof.
  intros S1. unfold scino, scientific.
  rewrite length_minus_1_nonempty.
  replace (put "" (char_at (digits n) 0)) with (substring 0 1 (digits n)).
  2:{ unfold put, char_at. destruct (digits n) as [| c v]; [congruence |].
      destruct v; reflexivity. }
  unfold put_unsigned.
  destruct (Z.gtb_spec sigfigs 1) as [G | NG];
    destruct (Z.ltb_spec 1 sigfigs) as [L | NL]; try lia.
  - change 1 with (Z.of_nat 1) at 2. rewrite scino_loop_spec.
    unfold put. rewrite !append_assoc. reflexivity.
  - unfold put. rewrite !append_assoc. reflexivity.
Qed.

End Scientific.

(** * Exponentiation *)

Section Exponentiation.

(** More fuel never changes a result already reached. *)
Lemma power_loop_more_fuel (fuel : nat) :
  forall n p res r,
    power_loop fuel n p res = Some r ->
    power_loop (S fuel) n p res = Some r.
Proof.
  induction fuel as [| fuel IH]; intros n p res r H.
  - cbn [power_loop] in *. destruct (digits p =? "0")%string; [exact H |].
    discriminate.
  - remember (S fuel) as f eqn:F. cbn [power_loop].
    destruct (digits p =? "0")%string eqn:E.
    + subst f. cbn [power_loop] in H. now rewrite E in H.
    + apply IH. subst f. cbn [power_loop] in H. now rewrite E in H.
Qed.

(** With base "0" every pass leaves "0" in [res], and the loop ends
    after as many passes as the exponent counts. *)
Lemma power_loop_zero_base (fuel : nat) :
  forall p res,
    canonical (digits p) = true ->
    value (digits p) <= Z.of_nat fuel ->
    power_loop fuel (mkNum "0") p res =
    Some (if (digits p =? "0")%string then res else mkNum "0").
Proof.
  induction fuel as [| fuel IH]; intros p res C B.
  - cbn [power_loop]. destruct (String.eqb_spec (digits p) "0") as [E | N];
      [reflexivity |].
    pose proof (canonical_positive _ C N). lia.
  - cbn [power_loop]. destruct (String.eqb_spec (digits p) "0") as [E | N];
      [reflexivity |].
    destruct (decrement_spec p C N) as (Cd & Nd).
    rewrite IH by (auto; lia).
    rewrite multiply_short by (left; reflexivity).
    now destruct (digits (decrement p) =? "0")%string.
Qed.

End Exponentiation.

(** * Canonical results *)

Section CanonicalResults.

Lemma canonical_lower_bound_nat (s : string) :
  canonical s = true -> s <> "0" ->
  10 ^ Z.of_nat (length s - 1) <= value s.
Proof.
  intros C N. pose proof (canonical_lower_bound s C N).
  pose proof (canonical_length s C).
  replace (Z.of_nat (length s - 1)) with (Z.of_nat (length s) - 1) by lia.
  assumption.
Qed.

Lemma long_not_zero (s : string) : (1 < length s)%nat -> s <> "0".
Proof. intros L E. rewrite E in L. simpl in L. lia. Qed.

Lemma add_canonical (a b : Num) :
  canonical (digits a) = true -> canonical (digits b) = true ->
  canonical (digits (add a b)) = true.
Proof.
  intros Ca Cb.
  pose proof (canonical_is_value _ Ca) as Va.
  pose proof (canonical_is_value _ Cb) as Vb.
  destruct (add_spec a b Va Vb) as (V & N & L).
  pose proof (canonical_length _ Ca) as La.
  pose proof (canonical_length _ Cb) as Lb.
  pose proof (value_bound _ Va) as Ba. pose proof (value_bound _ Vb) as Bb.
  apply canonical_spec. split; [exact V |].
  rewrite L, N.
  set (m := Nat.max (length (digits a)) (length (digits b))) in *.
  destruct (extra_digit_cases m (value (digits a) + value (digits b)))
    as [[-> C] | [-> C]].
  - right. split; [lia |].
    replace (Z.of_nat (m + 1) - 1) with (Z.of_nat m) by lia. exact C.
  - destruct (Nat.eq_dec m 1) as [E | NE]; [left; lia | right].
    split; [lia |].
    replace (Z.of_nat (m + 0) - 1) with (Z.of_nat (m - 1)) by lia.
    destruct (Nat.max_spec (length (digits a)) (length (digits b)))
      as [[_ E] | [_ E]]; fold m in E.
    + assert (NZ : digits b <> "0") by (apply long_not_zero; lia).
      pose proof (canonical_lower_bound_nat _ Cb NZ) as Low.
      rewrite <- E in Low. lia.
    + assert (NZ : digits a <> "0") by (apply long_not_zero; lia).
      pose proof (canonical_lower_bound_nat _ Ca NZ) as Low.
      rewrite <- E in Low. lia.
Qed.

Lemma multiply_canonical (a b : Num) :
  canonical (digits a) = true -> canonical (digits b) = true ->
  canonical (digits (multiply a b)) = true.
Proof.
  intros Ca Cb.
  destruct (string_dec (digits a) "0") as [Ea | Na];
    [now rewrite multiply_short by auto |].
  destruct (string_dec (digits b) "0") as [Eb | Nb];
    [now rewrite multiply_short by auto |].
  pose proof (canonical_is_value _ Ca) as Va.
  pose proof (canonical_is_value _ Cb) as Vb.
  pose proof (canonical_length _ Ca) as La.
  pose proof (canonical_length _ Cb) as Lb.
  destruct (multiply_spec a b Va Vb) as (V & N).
  apply canonical_spec. split; [exact V |].
  rewrite multiply_length, N by auto.
  set (m := (length (digits a) + length (digits b) - 1)%nat).
  destruct (extra_digit_cases m (value (digits a) * value (digits b)))
    as [[-> C] | [-> C]].
  - right. split; [lia |].
    replace (Z.of_nat (m + 1) - 1) with (Z.of_nat m) by lia. exact C.
  - destruct (Nat.eq_dec m 1) as [E | NE]; [left; lia | right].
    split; [lia |].
    replace (Z.of_nat (m + 0) - 1)
      with (Z.of_nat ((length (digits a) - 1) + (length (digits b) - 1)))
      by lia.
    rewrite pow10_add.
    pose proof (canonical_lower_bound_nat _ Ca Na).
    pose proof (canonical_lower_bound_nat _ Cb Nb).
    pose proof (pow10_pos (length (digits a) - 1)).
    pose proof (pow10_pos (length (digits b) - 1)).
    nia.
Qed.

End CanonicalResults.

(** * Partial products *)

Section PartialProducts.



End PartialProducts.

(** * The properties of the operations *)

(** C1. [decrement] does not stop at zero: on "0" the borrow turns the
    only digit into "9" and the function returns "9", not "0".  On "1"
    it returns "0". *)
Theorem decrement_zero_returns_nine :
  decrement (mkNum "0") = mkNum "9" /\
  decrement (mkNum "0") <> mkNum "0" /\
  decrement (mkNum "1") = mkNum "0".
Proof. repeat split. discriminate. Qed.



(** C3. For a canonical [n] that denotes at least 1, [decrement n] is
    canonical (non-empty, no leading zero) and denotes [n - 1]; on
    "1000" it returns "999", one digit shorter. *)
Theorem decrement_positive (n : Num) :
  canonical (digits n) = true -> 1 <= value (digits n) ->
  canonical (digits (decrement n)) = true /\
  value (digits (decrement n)) = value (digits n) - 1 /\
  decrement (mkNum "1000") = mkNum "999".
Proof.
  intros C P.
  assert (NZ : digits n <> "0").
  { intros E. rewrite E in P. change (value "0") with 0 in P. lia. }
  destruct (decrement_spec n C NZ) as (Cd & Nd).
  repeat split; assumption.
Qed.

Lemma decrement_positive_witness :
  canonical (digits (decrement (mkNum "2000"))) = true /\
  value (digits (decrement (mkNum "2000"))) = value "2000" - 1 /\
  decrement (mkNum "1000") = mkNum "999".
Proof.
  apply (decrement_positive (mkNum "2000")); [reflexivity | vm_compute; discriminate].
Defined.

(** C4, as stated: every product of canonical values with [n] and [m]
    digits has [n + m] or [n + m - 1] digits.  This fails when one
    operand is "0": "0" times "12" is "0", one digit, not 2 or 3. *)
Lemma multiply_digit_count_zero_operand :
  ~ (forall a b : Num,
       canonical (digits a) = true -> canonical (digits b) = true ->
       length (digits (multiply a b)) =
       (length (digits a) + length (digits b))%nat \/
       length (digits (multiply a b)) =
       (length (digits a) + length (digits b) - 1)%nat).
Proof.
  intros H.
  destruct (H (mkNum "0") (mkNum "12") eq_refl eq_refl) as [E | E];
    vm_compute in E; discriminate.
Qed.

(** C4, amended: for canonical [a] and [b], both other than "0", with
    [n] and [m] digits, [multiply a b] has [n + m] or [n + m - 1]
    digits. *)
Theorem multiply_digit_count (a b : Num) :
  canonical (digits a) = true -> canonical (digits b) = true ->
  digits a <> "0" -> digits b <> "0" ->
  length (digits (multiply a b)) =
  (length (digits a) + length (digits b))%nat \/
  length (digits (multiply a b)) =
  (length (digits a) + length (digits b) - 1)%nat.
Proof.
  intros Ca Cb Na Nb.
  pose proof (canonical_length _ Ca). pose proof (canonical_length _ Cb).
  rewrite multiply_length by (auto using canonical_is_value).
  destruct (extra_digit_cases (length (digits a) + length (digits b) - 1)
              (value (digits a) * value (digits b))) as [[-> _] | [-> _]];
    [left | right]; lia.
Qed.

Lemma multiply_digit_count_witness :
  length (digits (multiply (mkNum "99") (mkNum "12"))) = (2 + 2)%nat \/
  length (digits (multiply (mkNum "99") (mkNum "12"))) = (2 + 2 - 1)%nat.
Proof.
  apply (multiply_digit_count (mkNum "99") (mkNum "12"));
    [reflexivity | reflexivity | discriminate | discriminate].
Defined.

(** C5. For canonical [a] and [b], [compare a b] is 1 when [a] denotes
    the larger number, -1 when it denotes the smaller one and 0 when
    both denote the same; [compare a a] is 0, and the result is 1
    exactly when [a] is the larger. *)
Theorem compare_order (a b : Num) :
  canonical (digits a) = true -> canonical (digits b) = true ->
  (value (digits b) < value (digits a) -> compare a b = 1) /\
  (value (digits a) < value (digits b) -> compare a b = -1) /\
  (value (digits a) = value (digits b) -> compare a b = 0) /\
  compare a a = 0 /\
  (compare a b = 1 <-> value (digits b) < value (digits a)).
Proof.
  intros Ca Cb.
  rewrite (compare_spec a b Ca Cb), (compare_spec a a Ca Ca).
  rewrite Z.compare_refl.
  destruct (Z.compare_spec (value (digits a)) (value (digits b)));
    cbn [ordering]; repeat split; intros; try lia.
Qed.

Lemma compare_order_witness :
  (value "124" < value "1230" -> compare (mkNum "1230") (mkNum "124") = 1) /\
  (value "1230" < value "124" -> compare (mkNum "1230") (mkNum "124") = -1) /\
  (value "1230" = value "124" -> compare (mkNum "1230") (mkNum "124") = 0) /\
  compare (mkNum "1230") (mkNum "1230") = 0 /\
  (compare (mkNum "1230") (mkNum "124") = 1 <-> value "124" < value "1230").
Proof.
  apply (compare_order (mkNum "1230") (mkNum "124")); reflexivity.
Defined.

(** C6. For all Values [a] and [b] (digit strings, canonical or not),
    [add] and [multiply] return the same digit sequence whichever way
    round the operands are given. *)
Theorem add_multiply_commutative (a b : Num) :
  is_value (digits a) = true -> is_value (digits b) = true ->
  digits (add a b) = digits (add b a) /\
  digits (multiply a b) = digits (multiply b a).
Proof.
  intros Va Vb. split.
  - now rewrite add_comm.
  - now rewrite (multiply_comm a b Va Vb).
Qed.

Lemma add_multiply_commutative_witness :
  digits (add (mkNum "905") (mkNum "020")) =
  digits (add (mkNum "020") (mkNum "905")) /\
  digits (multiply (mkNum "905") (mkNum "020")) =
  digits (multiply (mkNum "020") (mkNum "905")).
Proof.
  apply (add_multiply_commutative (mkNum "905") (mkNum "020")); reflexivity.
Defined.

(** C7. For a non-empty [v] and [sigfigs >= 1], [scino] writes the
    first digit of [v]; only when [sigfigs > 1], a decimal point and the
    next [sigfigs - 1] digits of [v], padded on the right with "0" when
    [v] has fewer; then "E" and [length v - 1].  The default number of
    significant digits is 5.  "12345" with 3 gives "1.23E4" and "7" with
    5 gives "7.0000E0". *)
Theorem scino_renders (v : string) (sigfigs : Z) :
  v <> "" -> 1 <= sigfigs ->
  scino (mkNum v) sigfigs = scientific v sigfigs /\
  scino_default (mkNum v) = scino (mkNum v) 5 /\
  scino_str_default v = scino_str v 5 /\
  scino_str "12345" 3 = "1.23E4" /\
  scino_str "7" 5 = "7.0000E0".
Proof.
  intros NE S1. repeat split.
  now apply (scino_spec (mkNum v)).
Qed.

Lemma scino_renders_witness :
  scino (mkNum "90210") 8 = scientific "90210" 8 /\
  scino_default (mkNum "90210") = scino (mkNum "90210") 5 /\
  scino_str_default "90210" = scino_str "90210" 5 /\
  scino_str "12345" 3 = "1.23E4" /\
  scino_str "7" 5 = "7.0000E0".
Proof.
  apply (scino_renders "90210" 8); [discriminate | lia].
Defined.

(** C8. [power n "0"] is "1" for every [n], "0" included: the loop
    makes no pass, so no fuel is used.  [power "2" "10"] is "1024",
    reached after 10 passes. *)
Theorem power_zero_exponent (fuel : nat) (n : Num) :
  power fuel n (mkNum "0") = Some (mkNum "1") /\
  power 0 n (mkNum "0") = Some (mkNum "1") /\
  power fuel (mkNum "0") (mkNum "0") = Some (mkNum "1") /\
  power (10 + fuel) (mkNum "2") (mkNum "10") = Some (mkNum "1024").
Proof.
  repeat split; destruct fuel; reflexivity.
Qed.

(** C9. For canonical [a] and [b], [add a b] and [multiply a b] are
    canonical: non-empty digit strings with no leading zero, and "0"
    only when the number denoted is zero. *)
Theorem results_canonical (a b : Num) :
  canonical (digits a) = true -> canonical (digits b) = true ->
  canonical (digits (add a b)) = true /\
  canonical (digits (multiply a b)) = true /\
  (digits (add a b) = "0" <-> value (digits a) + value (digits b) = 0) /\
  (digits (multiply a b) = "0" <-> value (digits a) * value (digits b) = 0).
Proof.
  intros Ca Cb.
  pose proof (canonical_is_value _ Ca) as Va.
  pose proof (canonical_is_value _ Cb) as Vb.
  pose proof (add_canonical a b Ca Cb) as CA.
  pose proof (multiply_canonical a b Ca Cb) as CM.
  destruct (add_spec a b Va Vb) as (_ & NA & _).
  destruct (multiply_spec a b Va Vb) as (_ & NM).
  repeat split; auto.
  - intros E. rewrite <- NA, E. reflexivity.
  - intros E. apply canonical_zero; [exact CA | now rewrite NA].
  - intros E. rewrite <- NM, E. reflexivity.
  - intros E. apply canonical_zero; [exact CM | now rewrite NM].
Qed.

Lemma results_canonical_witness :
  canonical (digits (add (mkNum "999") (mkNum "1"))) = true /\
  canonical (digits (multiply (mkNum "999") (mkNum "1"))) = true /\
  (digits (add (mkNum "999") (mkNum "1")) = "0" <-> value "999" + value "1" = 0) /\
  (digits (multiply (mkNum "999") (mkNum "1")) = "0" <->
   value "999" * value "1" = 0).
Proof.
  apply (results_canonical (mkNum "999") (mkNum "1")); reflexivity.
Defined.

(** C10. For a canonical [p] other than "0", [power "0" p] is "0": the
    loop ends after as many passes as [p] counts, and each pass leaves
    "0" in the result through the short-circuit of [multiply]. *)
Theorem power_zero_base (p : Num) (fuel : nat) :
  canonical (digits p) = true -> digits p <> "0" ->
  value (digits p) <= Z.of_nat fuel ->
  power fuel (mkNum "0") p = Some (mkNum "0").
Proof.
  intros C N B. unfold power.
  rewrite (power_loop_zero_base fuel p (mkNum "1") C B).
  apply String.eqb_neq in N. now rewrite N.
Qed.

Lemma power_zero_base_witness :
  power 12 (mkNum "0") (mkNum "12") = Some (mkNum "0").
Proof.
  apply (power_zero_base (mkNum "12") 12);
    [reflexivity | discriminate | vm_compute; discriminate].
Defined.

(** * Further properties of the operations *)

Section Representation.

(** A number has one canonical representation. *)
Lemma canonical_unique (s t : string) :
  canonical s = true -> canonical t = true -> value s = value t -> s = t.
Proof.
  intros Cs Ct E.
  apply canonical_spec in Cs, Ct.
  destruct Cs as [Vs Hs], Ct as [Vt Ht].
  pose proof (value_bound _ Vs) as Bs. pose proof (value_bound _ Vt) as Bt.
  apply value_inj; auto.
  destruct (Nat.lt_trichotomy (length s) (length t)) as [L | [L | L]];
    [exfalso | exact L | exfalso].
  - destruct Ht as [Ht | [_ Ht]]; [lia |].
    replace (Z.of_nat (length t) - 1) with (Z.of_nat (length t - 1)) in Ht by lia.
    pose proof (pow10_le (length s) (length t - 1) ltac:(lia)). lia.
  - destruct Hs as [Hs | [_ Hs]]; [lia |].
    replace (Z.of_nat (length s) - 1) with (Z.of_nat (length s - 1)) in Hs by lia.
    pose proof (pow10_le (length t) (length s - 1) ltac:(lia)). lia.
Qed.

Lemma fits_own_length (s : string) : is_value s = true -> fits (length s) s.
Proof. intros V. repeat split; auto; lia. Qed.

(** Two strings that fit the same length and denote the same number are
    equal. *)
Lemma fits_unique (m : nat) (s t : string) :
  fits m s -> fits m t -> value s = value t -> s = t.
Proof.
  intros (Vs & Ms & Hs) (Vt & Mt & Ht) E.
  pose proof (value_bound _ Vs) as Bs. pose proof (value_bound _ Vt) as Bt.
  apply value_inj; auto.
  destruct (Nat.lt_trichotomy (length s) (length t)) as [L | [L | L]];
    [exfalso | exact L | exfalso].
  - specialize (Ht ltac:(lia)).
    replace (Z.of_nat (length t) - 1) with (Z.of_nat (length t - 1)) in Ht by lia.
    pose proof (pow10_le (length s) (length t - 1) ltac:(lia)). lia.
  - specialize (Hs ltac:(lia)).
    replace (Z.of_nat (length s) - 1) with (Z.of_nat (length s - 1)) in Hs by lia.
    pose proof (pow10_le (length t) (length s - 1) ltac:(lia)). lia.
Qed.

Lemma fits_add (ma mb : nat) (a b : Num) :
  fits ma (digits a) -> fits mb (digits b) ->
  fits (Nat.max ma mb) (digits (add a b)).
Proof.
  intros (Va & Ma & Ha) (Vb & Mb & Hb).
  destruct (add_spec a b Va Vb) as (V & N & L).
  pose proof (value_bound _ Va) as Ba. pose proof (value_bound _ Vb) as Bb.
  set (m := Nat.max (length (digits a)) (length (digits b))) in *.
  destruct (extra_digit_cases m (value (digits a) + value (digits b)))
    as [[E C] | [E C]]; rewrite E in L; clear E.
  - repeat split; auto; [lia |]. intros _. rewrite L, N.
    replace (Z.of_nat (m + 1) - 1) with (Z.of_nat m) by lia. exact C.
  - repeat split; auto; [lia |]. intros G. rewrite L, N.
    replace (m + 0)%nat with m in * by lia.
    destruct (Nat.max_spec (length (digits a)) (length (digits b)))
      as [[_ E] | [_ E]]; fold m in E; rewrite E.
    + specialize (Hb ltac:(lia)). lia.
    + specialize (Ha ltac:(lia)). lia.
Qed.

End Representation.

(** X1. [unval] and [val] undo each other: [val (unval n) = n], with
    [unval n] a digit character, for every [n] from 0 to 9, and
    [unval (val c) = c] for every 7-bit character [c], digit or not. *)
Theorem val_unval_round_trip (n : Z) (c : ascii) :
  0 <= n <= 9 -> seven_bit c = true ->
  val (unval n) = n /\ is_digit (unval n) = true /\
  seven_bit (unval n) = true /\ unval (val c) = c.
Proof.
  intros R _. repeat split.
  - now apply val_unval.
  - apply is_digit_range. now rewrite val_unval.
  - unfold seven_bit, unval. apply Nat.ltb_lt.
    rewrite Z.mod_small by lia. rewrite nat_ascii_embedding by lia. lia.
  - apply unval_val.
Qed.

Lemma val_unval_round_trip_witness :
  val (unval 7) = 7 /\ is_digit (unval 7) = true /\
  seven_bit (unval 7) = true /\ unval (val "z") = "z"%char.
Proof. apply (val_unval_round_trip 7 "z"); [lia | reflexivity]. Defined.

(** X2. On any two digit strings, leading zeros or empty strings
    included, [add] returns a digit string that denotes the sum.  It has
    as many digits as the longer operand, and one more exactly when the
    sum does not fit in that many. *)
Theorem add_exact (a b : Num) :
  is_value (digits a) = true -> is_value (digits b) = true ->
  let m := Nat.max (length (digits a)) (length (digits b)) in
  is_value (digits (add a b)) = true /\
  value (digits (add a b)) = value (digits a) + value (digits b) /\
  (value (digits a) + value (digits b) < 10 ^ Z.of_nat m ->
   length (digits (add a b)) = m) /\
  (10 ^ Z.of_nat m <= value (digits a) + value (digits b) ->
   length (digits (add a b)) = S m).
Proof.
  intros Va Vb m. destruct (add_spec a b Va Vb) as (V & N & L).
  fold m in L.
  destruct (extra_digit_cases m (value (digits a) + value (digits b)))
    as [[E C] | [E C]]; rewrite E in L; repeat split; auto; intros; lia.
Qed.

Lemma add_exact_witness :
  is_value (digits (add (mkNum "0995") (mkNum "07"))) = true /\
  value (digits (add (mkNum "0995") (mkNum "07"))) = value "0995" + value "07" /\
  (value "0995" + value "07" < 10 ^ Z.of_nat 4 ->
   length (digits (add (mkNum "0995") (mkNum "07"))) = 4%nat) /\
  (10 ^ Z.of_nat 4 <= value "0995" + value "07" ->
   length (digits (add (mkNum "0995") (mkNum "07"))) = 5%nat).
Proof. apply (add_exact (mkNum "0995") (mkNum "07")); reflexivity. Defined.

(** X3. The empty string and "0" are neutral for [add]: adding the
    empty string to a digit string returns that string, on either side,
    and so does adding "0" when the string is not empty.  (Adding "0" to
    the empty string gives "0".) *)
Theorem add_neutral (a : Num) :
  is_value (digits a) = true ->
  add a (mkNum "") = a /\ add (mkNum "") a = a /\
  (digits a <> "" -> add a (mkNum "0") = a /\ add (mkNum "0") a = a).
Proof.
  intros Va.
  pose proof (value_bound _ Va) as Ba.
  assert (E0 : add a (mkNum "") = a).
  { apply Num_eq. destruct (add_spec a (mkNum "") Va eq_refl) as (V & N & L).
    apply value_inj; auto.
    - rewrite L. cbn [digits length]. rewrite Nat.max_0_r.
      change (value "") with 0.
      destruct (extra_digit_cases (length (digits a)) (value (digits a) + 0))
        as [[-> C] | [-> C]]; lia.
    - rewrite N. change (value (digits (mkNum ""))) with 0. lia. }
  split; [exact E0 |]. split; [now rewrite add_comm |].
  intros NE.
  assert (E1 : add a (mkNum "0") = a).
  { apply Num_eq. destruct (add_spec a (mkNum "0") Va eq_refl) as (V & N & L).
    assert (1 <= length (digits a))%nat
      by (destruct (digits a); [congruence | simpl; lia]).
    apply value_inj; auto.
    - rewrite L. cbn [digits length].
      replace (Nat.max (length (digits a)) 1) with (length (digits a)) by lia.
      change (value "0") with 0.
      destruct (extra_digit_cases (length (digits a)) (value (digits a) + 0))
        as [[-> C] | [-> C]]; lia.
    - rewrite N. change (value (digits (mkNum "0"))) with 0. lia. }
  split; [exact E1 | now rewrite add_comm].
Qed.

Lemma add_neutral_witness :
  add (mkNum "0042") (mkNum "") = mkNum "0042" /\
  add (mkNum "") (mkNum "0042") = mkNum "0042" /\
  (digits (mkNum "0042") <> "" ->
   add (mkNum "0042") (mkNum "0") = mkNum "0042" /\
   add (mkNum "0") (mkNum "0042") = mkNum "0042").
Proof. apply (add_neutral (mkNum "0042")). reflexivity. Defined.

(** X4. [add] is associative on digit strings, canonical or not: both
    groupings return the same digit sequence. *)
Theorem add_associative (a b c : Num) :
  is_value (digits a) = true -> is_value (digits b) = true ->
  is_value (digits c) = true ->
  add (add a b) c = add a (add b c).
Proof.
  intros Va Vb Vc. apply Num_eq.
  pose proof (fits_own_length _ Va) as Fa.
  pose proof (fits_own_length _ Vb) as Fb.
  pose proof (fits_own_length _ Vc) as Fc.
  pose proof (fits_add _ _ _ _ (fits_add _ _ _ _ Fa Fb) Fc) as F1.
  pose proof (fits_add _ _ _ _ Fa (fits_add _ _ _ _ Fb Fc)) as F2.
  rewrite <- Nat.max_assoc in F1.
  apply (fits_unique _ _ _ F1 F2).
  destruct (add_spec a b Va Vb) as (Vab & Nab & _).
  destruct (add_spec b c Vb Vc) as (Vbc & Nbc & _).
  destruct (add_spec (add a b) c Vab Vc) as (_ & N1 & _).
  destruct (add_spec a (add b c) Va Vbc) as (_ & N2 & _).
  lia.
Qed.

Lemma add_associative_witness :
  add (add (mkNum "5") (mkNum "995")) (mkNum "000") =
  add (mkNum "5") (add (mkNum "995") (mkNum "000")).
Proof.
  apply (add_associative (mkNum "5") (mkNum "995") (mkNum "000")); reflexivity.
Defined.

(** X5. [multiply] is exact on all digit strings, not only canonical
    ones: leading zeros and empty operands (read as 0) still give a
    digit string that denotes the product.  For non-empty operands other
    than "0", with [n] and [m] digits, the result has [n + m - 1]
    digits, and one more exactly when the product does not fit. *)
Theorem multiply_exact_any_digits (a b : Num) :
  is_value (digits a) = true -> is_value (digits b) = true ->
  is_value (digits (multiply a b)) = true /\
  value (digits (multiply a b)) = value (digits a) * value (digits b) /\
  (digits a <> "" -> digits b <> "" -> digits a <> "0" -> digits b <> "0" ->
   let k := (length (digits a) + length (digits b) - 1)%nat in
   (value (digits a) * value (digits b) < 10 ^ Z.of_nat k ->
    length (digits (multiply a b)) = k) /\
   (10 ^ Z.of_nat k <= value (digits a) * value (digits b) ->
    length (digits (multiply a b)) = S k)).
Proof.
  intros Va Vb. destruct (multiply_spec a b Va Vb) as (V & N).
  split; [exact V |]. split; [exact N |].
  intros NEa NEb NZa NZb k.
  assert (La : (1 <= length (digits a))%nat)
    by (destruct (digits a); [congruence | simpl; lia]).
  assert (Lb : (1 <= length (digits b))%nat)
    by (destruct (digits b); [congruence | simpl; lia]).
  rewrite multiply_length by auto. fold k.
  destruct (extra_digit_cases k (value (digits a) * value (digits b)))
    as [[-> C] | [-> C]]; split; intros; lia.
Qed.

Lemma multiply_exact_any_digits_witness :
  is_value (digits (multiply (mkNum "050") (mkNum "02"))) = true /\
  value (digits (multiply (mkNum "050") (mkNum "02"))) =
  value "050" * value "02" /\
  (digits (mkNum "050") <> "" -> digits (mkNum "02") <> "" ->
   digits (mkNum "050") <> "0" -> digits (mkNum "02") <> "0" ->
   let k := (length "050" + length "02" - 1)%nat in
   (value "050" * value "02" < 10 ^ Z.of_nat k ->
    length (digits (multiply (mkNum "050") (mkNum "02"))) = k) /\
   (10 ^ Z.of_nat k <= value "050" * value "02" ->
    length (digits (multiply (mkNum "050") (mkNum "02"))) = S k)).
Proof.
  apply (multiply_exact_any_digits (mkNum "050") (mkNum "02")); reflexivity.
Defined.

(** X6. "1" is neutral for [multiply] on non-empty digit strings, on
    either side, leading zeros kept.  An empty operand makes the result
    "0" whatever the other operand holds. *)
Theorem multiply_neutral_and_empty (a : Num) :
  is_value (digits a) = true -> digits a <> "" ->
  multiply a (mkNum "1") = a /\ multiply (mkNum "1") a = a /\
  (forall x : Num, multiply x (mkNum "") = mkNum "0" /\
                   multiply (mkNum "") x = mkNum "0").
Proof.
  intros Va NE.
  assert (La : (1 <= length (digits a))%nat)
    by (destruct (digits a); [congruence | simpl; lia]).
  pose proof (value_bound _ Va) as Ba.
  assert (E1 : multiply a (mkNum "1") = a).
  { destruct (string_dec (digits a) "0") as [Z0 | NZ].
    - rewrite multiply_short by auto. apply Num_eq. now rewrite Z0.
    - apply Num_eq. destruct (multiply_spec a (mkNum "1") Va eq_refl) as (V & N).
      apply value_inj; auto.
      + rewrite multiply_length; auto; try discriminate.
        cbn [digits length]. change (value "1") with 1.
        replace (length (digits a) + 1 - 1)%nat with (length (digits a)) by lia.
        destruct (extra_digit_cases (length (digits a)) (value (digits a) * 1))
          as [[-> C] | [-> C]]; lia.
      + rewrite N. change (value (digits (mkNum "1"))) with 1. lia. }
  split; [exact E1 |]. split; [now rewrite multiply_comm |].
  intros x. unfold multiply, order_by_length. cbn [digits length String.eqb].
  rewrite orb_false_r. cbn [orb].
  destruct (digits x =? "0")%string eqn:E0; [split; reflexivity |].
  split; [reflexivity |].
  destruct (length (digits x)) eqn:Lx; cbn [Nat.leb].
  - now rewrite (empty_string _ Lx).
  - reflexivity.
Qed.

Lemma multiply_neutral_and_empty_witness :
  multiply (mkNum "0042") (mkNum "1") = mkNum "0042" /\
  multiply (mkNum "1") (mkNum "0042") = mkNum "0042" /\
  (forall x : Num, multiply x (mkNum "") = mkNum "0" /\
                   multiply (mkNum "") x = mkNum "0").
Proof.
  apply (multiply_neutral_and_empty (mkNum "0042"));
    [reflexivity | discriminate].
Defined.

(** X7. On canonical values [multiply] is associative: both groupings
    return the same digit sequence. *)
Theorem multiply_associative (a b c : Num) :
  canonical (digits a) = true -> canonical (digits b) = true ->
  canonical (digits c) = true ->
  multiply (multiply a b) c = multiply a (multiply b c).
Proof.
  intros Ca Cb Cc. apply Num_eq.
  pose proof (multiply_canonical a b Ca Cb) as Cab.
  pose proof (multiply_canonical b c Cb Cc) as Cbc.
  apply canonical_unique; try now apply multiply_canonical.
  destruct (multiply_spec a b) as (_ & Nab); try now apply canonical_is_value.
  destruct (multiply_spec b c) as (_ & Nbc); try now apply canonical_is_value.
  destruct (multiply_spec (multiply a b) c) as (_ & N1);
    try now apply canonical_is_value.
  destruct (multiply_spec a (multiply b c)) as (_ & N2);
    try now apply canonical_is_value.
  rewrite N1, N2, Nab, Nbc. ring.
Qed.

Lemma multiply_associative_witness :
  multiply (multiply (mkNum "25") (mkNum "4")) (mkNum "999") =
  multiply (mkNum "25") (multiply (mkNum "4") (mkNum "999")).
Proof.
  apply (multiply_associative (mkNum "25") (mkNum "4") (mkNum "999"));
    reflexivity.
Defined.

(** X8. On canonical values [multiply] distributes over [add]:
    [a * (b + c)] and [a * b + a * c] are the same digit sequence. *)
Theorem multiply_distributes_over_add (a b c : Num) :
  canonical (digits a) = true -> canonical (digits b) = true ->
  canonical (digits c) = true ->
  multiply a (add b c) = add (multiply a b) (multiply a c).
Proof.
  intros Ca Cb Cc. apply Num_eq.
  pose proof (canonical_is_value _ Ca) as Va.
  pose proof (canonical_is_value _ Cb) as Vb.
  pose proof (canonical_is_value _ Cc) as Vc.
  pose proof (add_canonical b c Cb Cc) as Cbc.
  pose proof (multiply_canonical a b Ca Cb) as Cab.
  pose proof (multiply_canonical a c Ca Cc) as Cac.
  apply canonical_unique.
  - now apply multiply_canonical.
  - now apply add_canonical.
  - destruct (add_spec b c Vb Vc) as (_ & Nbc & _).
    destruct (multiply_spec a b Va Vb) as (_ & Nab).
    destruct (multiply_spec a c Va Vc) as (_ & Nac).
    destruct (multiply_spec a (add b c) Va (canonical_is_value _ Cbc))
      as (_ & N1).
    destruct (add_spec (multiply a b) (multiply a c)
                (canonical_is_value _ Cab) (canonical_is_value _ Cac))
      as (_ & N2 & _).
    rewrite N1, N2, Nbc, Nab, Nac. ring.
Qed.

Lemma multiply_distributes_over_add_witness :
  multiply (mkNum "12") (add (mkNum "95") (mkNum "7")) =
  add (multiply (mkNum "12") (mkNum "95")) (multiply (mkNum "12") (mkNum "7")).
Proof.
  apply (multiply_distributes_over_add (mkNum "12") (mkNum "95") (mkNum "7"));
    reflexivity.
Defined.

Section OrderOnStrings.

Lemma compare_loop_antisym (xs : list ascii) :
  forall ys, compare_loop ys xs = - compare_loop xs ys.
Proof.
  induction xs as [| cx xs IH]; intros [| cy ys]; try reflexivity.
  cbn [compare_loop].
  destruct (Z.gtb_spec (val cx) (val cy)); destruct (Z.ltb_spec (val cx) (val cy));
    destruct (Z.gtb_spec (val cy) (val cx)); destruct (Z.ltb_spec (val cy) (val cx));
    try lia; try reflexivity.
  apply IH.
Qed.

Lemma compare_loop_refl (xs : list ascii) : compare_loop xs xs = 0.
Proof.
  induction xs as [| c xs IH]; [reflexivity |].
  cbn [compare_loop].
  destruct (Z.gtb_spec (val c) (val c)); [lia |].
  destruct (Z.ltb_spec (val c) (val c)); [lia | exact IH].
Qed.

Lemma compare_loop_zero (xs : list ascii) :
  forall ys, List.length xs = List.length ys ->
             compare_loop xs ys = 0 -> xs = ys.
Proof.
  induction xs as [| cx xs IH]; intros [| cy ys] L E; try discriminate;
    [reflexivity |].
  cbn [compare_loop] in E.
  destruct (Z.gtb_spec (val cx) (val cy)); [discriminate |].
  destruct (Z.ltb_spec (val cx) (val cy)); [discriminate |].
  f_equal.
  - apply val_inj. lia.
  - apply IH; [simpl in L; lia | exact E].
Qed.

End OrderOnStrings.

(** X9. [compare] is antisymmetric on all strings of 7-bit characters,
    digit strings or not: exchanging the operands negates the result,
    which is always -1, 0 or 1. *)
Theorem compare_antisymmetric (x y : Num) :
  seven_bit_string (digits x) = true -> seven_bit_string (digits y) = true ->
  compare y x = - compare x y /\
  (compare x y = -1 \/ compare x y = 0 \/ compare x y = 1).
Proof.
  intros _ _.
  assert (R : forall xs ys, compare_loop xs ys = -1 \/ compare_loop xs ys = 0
                            \/ compare_loop xs ys = 1).
  { induction xs as [| cx xs IH]; intros [| cy ys]; cbn [compare_loop]; auto.
    destruct (val cx >? val cy); auto. destruct (val cx <? val cy); auto. }
  unfold compare.
  destruct (Nat.ltb_spec (length (digits y)) (length (digits x)));
    destruct (Nat.ltb_spec (length (digits x)) (length (digits y)));
    try lia; auto.
  split; [apply compare_loop_antisym | apply R].
Qed.

Lemma compare_antisymmetric_witness :
  compare (mkNum "19z") (mkNum "1a0") = - compare (mkNum "1a0") (mkNum "19z") /\
  (compare (mkNum "1a0") (mkNum "19z") = -1 \/
   compare (mkNum "1a0") (mkNum "19z") = 0 \/
   compare (mkNum "1a0") (mkNum "19z") = 1).
Proof.
  apply (compare_antisymmetric (mkNum "1a0") (mkNum "19z")); reflexivity.
Defined.

(** X10. On strings of 7-bit characters, digit strings or not,
    [compare] returns 0 exactly when the two character sequences are
    the same string. *)
Theorem compare_zero_iff_equal (x y : Num) :
  seven_bit_string (digits x) = true -> seven_bit_string (digits y) = true ->
  (compare x y = 0 <-> digits x = digits y).
Proof.
  intros _ _. unfold compare. split.
  - destruct (Nat.ltb_spec (length (digits y)) (length (digits x)));
      [discriminate |].
    destruct (Nat.ltb_spec (length (digits x)) (length (digits y)));
      [discriminate |].
    intros E. apply chars_inj. apply compare_loop_zero; [| exact E].
    rewrite !length_chars. lia.
  - intros ->. rewrite Nat.ltb_irrefl. apply compare_loop_refl.
Qed.

Lemma compare_zero_iff_equal_witness :
  compare (mkNum "0x1F") (mkNum "0x1f") = 0 <->
  digits (mkNum "0x1F") = digits (mkNum "0x1f").
Proof.
  apply (compare_zero_iff_equal (mkNum "0x1F") (mkNum "0x1f")); reflexivity.
Defined.

Section DecrementAnyDigits.

Variable n : Num.

(** The loop on any digit string that denotes at least 1, leading zeros
    allowed. *)
Lemma decrement_loop_value (ds : list ascii) :
  forall k,
    digits_ok ds -> 1 <= lvalue ds ->
    length (digits n) = (List.length ds + k)%nat ->
    let r := decrement_loop n ds true (replicate k "9") in
    is_value r = true /\
    value r = lvalue ds * 10 ^ Z.of_nat k - 1 /\
    (length r = length (digits n) \/
     S (length r) = length (digits n) /\
     lvalue ds * 10 ^ Z.of_nat k = 10 ^ Z.of_nat (length r)).
Proof.
  induction ds as [| c ds IH]; intros k D Pos Len r.
  { cbn in Pos. lia. }
  inversion D as [| ? ? Hc D']; subst.
  rewrite lvalue_cons in *. cbn [List.length] in Len.
  subst r. cbn [decrement_loop].
  destruct ((List.length ds =? 0)%nat && (c =? "1")%char
            && (1 <? length (digits n))%nat) eqn:Brk.
  - apply andb_true_iff in Brk. destruct Brk as [Brk _].
    apply andb_true_iff in Brk. destruct Brk as [B1 B2].
    apply Nat.eqb_eq in B1. rewrite eqb_char1 in B2. apply Z.eqb_eq in B2.
    destruct ds; [| discriminate]. cbn [lvalue fold_right].
    rewrite value_nines, length_replicate, B2.
    split; [now apply is_value_replicate |]. split; [lia |].
    right. split; [simpl in Len; lia | lia].
  - destruct (c =? "0")%char eqn:C0.
    + rewrite eqb_char0 in C0. apply Z.eqb_eq in C0.
      destruct (IH (S k)) as (Vr & Nr & Lr); auto; try lia.
      cbn [replicate] in Vr, Nr, Lr.
      split; [exact Vr |]. split.
      * rewrite Nr, pow10_S, C0. ring.
      * destruct Lr as [Lr | [Lr Er]]; [now left | right].
        split; [exact Lr |]. rewrite <- Er, pow10_S, C0. ring.
    + rewrite eqb_char0 in C0. apply Z.eqb_neq in C0.
      rewrite decrement_loop_copy.
      set (low := String (unval (val c - 1)) (replicate k "9")).
      assert (Vl : is_value low = true).
      { unfold low. rewrite is_value_cons, is_value_replicate by reflexivity.
        rewrite andb_true_r. apply is_digit_range. rewrite val_unval; lia. }
      assert (Ll : length low = S k).
      { unfold low. cbn [length]. now rewrite length_replicate. }
      assert (Nl : value low = val c * 10 ^ Z.of_nat k - 1).
      { unfold low. rewrite value_cons, value_nines, length_replicate.
        rewrite val_unval by lia. ring. }
      split.
      { rewrite is_value_append, Vl, andb_true_r. now apply is_value_unrev. }
      split.
      * rewrite value_append, value_unrev, Ll, Nl, pow10_S. ring.
      * left. rewrite length_append, length_unrev, Ll. lia.
Qed.

End DecrementAnyDigits.

Section Zeros.

Lemma rdigits_replicate (k : nat) (c : ascii) :
  rdigits (replicate k c) = repeat c k.
Proof.
  induction k as [| k IH]; [reflexivity |].
  cbn [replicate repeat]. rewrite rdigits_cons, IH. symmetry. apply repeat_cons.
Qed.

Lemma decrement_loop_zeros (n : Num) (j : nat) :
  forall res,
    decrement_loop n (repeat "0"%char j) true res = replicate j "9" ++ res.
Proof.
  induction j as [| j IH]; intros res; [reflexivity |].
  cbn [repeat decrement_loop].
  change ("0" =? "1")%char with false. rewrite andb_false_r. cbn [andb].
  change ("0" =? "0")%char with true. cbv iota.
  rewrite IH, append_snoc, replicate_snoc. reflexivity.
Qed.

End Zeros.

(** X11. On every digit string that denotes at least 1, leading zeros
    or not, [decrement] returns a digit string that denotes one less.
    The result keeps the number of digits, except that it is one digit
    shorter when the operand is a "1" followed only by "0"s. *)
Theorem decrement_exact_any_digits (n : Num) :
  is_value (digits n) = true -> 1 <= value (digits n) ->
  is_value (digits (decrement n)) = true /\
  value (digits (decrement n)) = value (digits n) - 1 /\
  (length (digits (decrement n)) = length (digits n) \/
   S (length (digits (decrement n))) = length (digits n) /\
   value (digits n) = 10 ^ Z.of_nat (length (digits (decrement n)))).
Proof.
  intros V P.
  destruct (decrement_loop_value n (rdigits (digits n)) 0%nat)
    as (Vr & Nr & Lr).
  - now apply is_value_digits_ok.
  - now rewrite <- value_lvalue.
  - rewrite length_rdigits. lia.
  - unfold decrement. cbn [digits]. cbn [replicate] in Vr, Nr, Lr.
    rewrite <- value_lvalue in Nr, Lr.
    change (10 ^ Z.of_nat 0) with 1 in Nr, Lr.
    rewrite Z.mul_1_r in Nr, Lr. auto.
Qed.

Lemma decrement_exact_any_digits_witness :
  is_value (digits (decrement (mkNum "0100"))) = true /\
  value (digits (decrement (mkNum "0100"))) = value "0100" - 1 /\
  (length (digits (decrement (mkNum "0100"))) = length "0100" \/
   S (length (digits (decrement (mkNum "0100")))) = length "0100" /\
   value "0100" = 10 ^ Z.of_nat (length (digits (decrement (mkNum "0100"))))).
Proof.
  apply (decrement_exact_any_digits (mkNum "0100"));
    [reflexivity | vm_compute; discriminate].
Defined.

(** X12. [decrement] wraps around instead of stopping at zero: a string
    of [k] "0"s comes back as [k] "9"s, for every [k] (the empty string
    comes back empty). *)
Theorem decrement_zeros_gives_nines (k : nat) :
  decrement (mkNum (replicate k "0")) = mkNum (replicate k "9").
Proof.
  unfold decrement. cbn [digits].
  now rewrite rdigits_replicate, decrement_loop_zeros, append_nil_r.
Qed.

(** X13. Adding "1" and decrementing undo each other on canonical
    values: [decrement (add n "1") = n], and [add (decrement n) "1" = n]
    when [n] is not "0". *)
Theorem increment_decrement_round_trip (n : Num) :
  canonical (digits n) = true ->
  decrement (add n (mkNum "1")) = n /\
  (digits n <> "0" -> add (decrement n) (mkNum "1") = n).
Proof.
  intros C.
  pose proof (canonical_is_value _ C) as V.
  pose proof (value_bound _ V) as B.
  split.
  - pose proof (add_canonical n (mkNum "1") C eq_refl) as Ca.
    destruct (add_spec n (mkNum "1") V eq_refl) as (_ & Na & _).
    change (value (digits (mkNum "1"))) with 1 in Na.
    assert (NZ : digits (add n (mkNum "1")) <> "0").
    { intros E. rewrite E in Na. change (value "0") with 0 in Na. lia. }
    destruct (decrement_spec _ Ca NZ) as (Cd & Nd).
    apply Num_eq, canonical_unique; auto. lia.
  - intros NZ. destruct (decrement_spec n C NZ) as (Cd & Nd).
    pose proof (add_canonical (decrement n) (mkNum "1") Cd eq_refl) as Ca.
    destruct (add_spec (decrement n) (mkNum "1") (canonical_is_value _ Cd)
                eq_refl) as (_ & Na & _).
    change (value (digits (mkNum "1"))) with 1 in Na.
    apply Num_eq, canonical_unique; auto. lia.
Qed.

Lemma increment_decrement_round_trip_witness :
  decrement (add (mkNum "999") (mkNum "1")) = mkNum "999" /\
  (digits (mkNum "999") <> "0" ->
   add (decrement (mkNum "999")) (mkNum "1") = mkNum "999").
Proof.
  apply (increment_decrement_round_trip (mkNum "999")). reflexivity.
Defined.

Section Iteration.

(** The loop of [power] multiplies [res] by [n] once for each unit of a
    canonical exponent, then stops. *)
Lemma power_loop_exact (fuel : nat) :
  forall n p res,
    canonical (digits n) = true -> canonical (digits res) = true ->
    canonical (digits p) = true -> value (digits p) <= Z.of_nat fuel ->
    exists r,
      power_loop fuel n p res = Some r /\
      canonical (digits r) = true /\
      value (digits r) = value (digits n) ^ value (digits p) * value (digits res).
Proof.
  induction fuel as [| fuel IH]; intros n p res Cn Cr Cp B;
    cbn [power_loop];
    destruct (String.eqb_spec (digits p) "0") as [E | N].
  - exists res. rewrite E. change (value "0") with 0.
    rewrite Z.pow_0_r. repeat split; auto. lia.
  - pose proof (canonical_positive _ Cp N). lia.
  - exists res. rewrite E. change (value "0") with 0.
    rewrite Z.pow_0_r. repeat split; auto. lia.
  - destruct (decrement_spec p Cp N) as (Cd & Nd).
    pose proof (canonical_positive _ Cp N) as P.
    destruct (IH n (decrement p) (multiply n res)) as (r & Er & Cr' & Nr);
      auto using multiply_canonical; try lia.
    exists r. repeat split; auto.
    destruct (multiply_spec n res) as (_ & Nm); auto using canonical_is_value.
    rewrite Nr, Nm, Nd.
    replace (value (digits p)) with (Z.succ (value (digits p) - 1)) at 2 by lia.
    rewrite Z.pow_succ_r by lia. ring.
Qed.

Lemma power_loop_short_of_fuel (fuel : nat) :
  forall n p res,
    canonical (digits p) = true -> Z.of_nat fuel < value (digits p) ->
    power_loop fuel n p res = None.
Proof.
  induction fuel as [| fuel IH]; intros n p res Cp B;
    cbn [power_loop];
    destruct (String.eqb_spec (digits p) "0") as [E | N];
    try (rewrite E in B; change (value "0") with 0 in B; lia).
  - reflexivity.
  - destruct (decrement_spec p Cp N) as (Cd & Nd).
    apply IH; [exact Cd | lia].
Qed.

(** The loop ends on every canonical exponent, whatever [n] and [res]
    hold. *)
Lemma power_loop_ends (fuel : nat) :
  forall n p res,
    canonical (digits p) = true -> value (digits p) <= Z.of_nat fuel ->
    exists r, power_loop fuel n p res = Some r.
Proof.
  induction fuel as [| fuel IH]; intros n p res Cp B;
    cbn [power_loop];
    destruct (String.eqb_spec (digits p) "0") as [E | N];
    try (now exists res).
  - pose proof (canonical_positive _ Cp N). lia.
  - destruct (decrement_spec p Cp N) as (Cd & Nd).
    apply IH; [exact Cd | lia].
Qed.

Lemma power_loop_extra_fuel (extra fuel : nat) :
  forall n p res r,
    power_loop fuel n p res = Some r ->
    power_loop (fuel + extra) n p res = Some r.
Proof.
  induction extra as [| extra IH]; intros n p res r H.
  - now rewrite Nat.add_0_r.
  - rewrite Nat.add_succ_r. apply power_loop_more_fuel. now apply IH.
Qed.

Lemma power_loop_empty (fuel : nat) :
  forall n res, power_loop fuel n (mkNum "") res = None.
Proof.
  induction fuel as [| fuel IH]; intros n res; [reflexivity |].
  cbn [power_loop digits String.eqb].
  change (decrement (mkNum "")) with (mkNum ""). apply IH.
Qed.

Lemma factorial_step (v : Z) :
  1 <= v ->
  Z.of_nat (fact (Z.to_nat v)) = v * Z.of_nat (fact (Z.to_nat (v - 1))).
Proof.
  intros P. replace (Z.to_nat v) with (S (Z.to_nat (v - 1))) by lia.
  cbn [fact]. rewrite Nat2Z.inj_mul. f_equal. lia.
Qed.

Lemma factorial_exact_fuel (fuel : nat) :
  forall n,
    canonical (digits n) = true -> value (digits n) - 1 <= Z.of_nat fuel ->
    exists r,
      factorial fuel n = Some r /\
      canonical (digits r) = true /\
      value (digits r) = Z.of_nat (fact (Z.to_nat (value (digits n)))).
Proof.
  assert (Base0 : value "0" = 0) by reflexivity.
  assert (Base1 : value "1" = 1) by reflexivity.
  assert (Two : forall n, canonical (digits n) = true ->
                  digits n <> "0" -> digits n <> "1" -> 2 <= value (digits n)).
  { intros n C N0 N1. pose proof (canonical_positive _ C N0) as P.
    destruct (Z.eq_dec (value (digits n)) 1) as [E | NE]; [| lia].
    exfalso. apply N1. apply canonical_unique; auto. }
  induction fuel as [| fuel IH]; intros n C B; cbn [factorial];
    destruct (String.eqb_spec (digits n) "0") as [E0 | N0];
    try (exists (mkNum "1"); rewrite E0, Base0; now repeat split);
    destruct (String.eqb_spec (digits n) "1") as [E1 | N1];
    try (exists (mkNum "1"); rewrite E1, Base1; now repeat split);
    cbn [negb andb]; pose proof (Two n C N0 N1) as P.
  - lia.
  - destruct (decrement_spec n C N0) as (Cd & Nd).
    destruct (IH (decrement n) Cd ltac:(lia)) as (r & Er & Cr & Nr).
    rewrite Er. exists (multiply n r). split; [reflexivity |].
    split; [now apply multiply_canonical |].
    destruct (multiply_spec n r) as (_ & Nm); auto using canonical_is_value.
    rewrite Nm, Nr, Nd. symmetry. apply factorial_step. lia.
Qed.

Lemma factorial_empty (fuel : nat) : factorial fuel (mkNum "") = None.
Proof.
  induction fuel as [| fuel IH]; [reflexivity |].
  cbn [factorial digits String.eqb negb andb].
  change (decrement (mkNum "")) with (mkNum ""). now rewrite IH.
Qed.

End Iteration.

(** X14. For canonical [n] and [p], [power n p] returns, once the fuel
    covers the value of [p], the canonical representation of [n] raised
    to [p] (with 0 to the 0 being 1). *)
Theorem power_exact (n p : Num) (fuel : nat) :
  canonical (digits n) = true -> canonical (digits p) = true ->
  value (digits p) <= Z.of_nat fuel ->
  exists r,
    power fuel n p = Some r /\
    canonical (digits r) = true /\
    value (digits r) = value (digits n) ^ value (digits p).
Proof.
  intros Cn Cp B.
  destruct (power_loop_exact fuel n p (mkNum "1") Cn eq_refl Cp B)
    as (r & Er & Cr & Nr).
  exists r. repeat split; auto.
  rewrite Nr. change (value (digits (mkNum "1"))) with 1. lia.
Qed.

Lemma power_exact_witness :
  exists r,
    power 5 (mkNum "12") (mkNum "5") = Some r /\
    canonical (digits r) = true /\
    value (digits r) = value "12" ^ value "5".
Proof.
  apply (power_exact (mkNum "12") (mkNum "5") 5);
    [reflexivity | reflexivity | vm_compute; discriminate].
Defined.

(** X15. For a canonical exponent [p] the loop of [power] makes
    exactly as many passes as [p] counts, whatever the base: fewer
    passes reach no result, that many reach one, and more passes return
    the same result. *)
Theorem power_pass_count (n p : Num) (fuel : nat) :
  canonical (digits p) = true ->
  (Z.of_nat fuel < value (digits p) -> power fuel n p = None) /\
  (value (digits p) <= Z.of_nat fuel ->
   exists r, power (Z.to_nat (value (digits p))) n p = Some r /\
             power fuel n p = Some r).
Proof.
  intros Cp. split.
  - intros B. now apply power_loop_short_of_fuel.
  - intros B.
    pose proof (value_bound _ (canonical_is_value _ Cp)) as Bp.
    destruct (power_loop_ends (Z.to_nat (value (digits p))) n p (mkNum "1") Cp
                ltac:(lia)) as (r & Er).
    exists r. split; [exact Er |].
    replace fuel
      with (Z.to_nat (value (digits p)) + (fuel - Z.to_nat (value (digits p))))%nat
      by lia.
    now apply power_loop_extra_fuel.
Qed.

Lemma power_pass_count_witness :
  (Z.of_nat 12 < value "10" -> power 12 (mkNum "7") (mkNum "10") = None) /\
  (value "10" <= Z.of_nat 12 ->
   exists r, power (Z.to_nat (value "10")) (mkNum "7") (mkNum "10") = Some r /\
             power 12 (mkNum "7") (mkNum "10") = Some r).
Proof.
  apply (power_pass_count (mkNum "7") (mkNum "10") 12). reflexivity.
Defined.

(** X16. On the empty string neither [power] (as exponent) nor
    [factorial] ever returns: [decrement] gives the empty string back,
    so the loop guard and the recursion test never see "0" or "1". *)
Theorem empty_argument_never_returns (fuel : nat) (n : Num) :
  power fuel n (mkNum "") = None /\ factorial fuel (mkNum "") = None.
Proof.
  split; [apply power_loop_empty | apply factorial_empty].
Qed.

(** X17. For a canonical [n], [factorial n] returns, once the fuel
    covers the recursion depth [n - 1], the canonical representation of
    the factorial of [n]; "0" and "1" both give "1". *)
Theorem factorial_exact (n : Num) (fuel : nat) :
  canonical (digits n) = true -> value (digits n) - 1 <= Z.of_nat fuel ->
  exists r,
    factorial fuel n = Some r /\
    canonical (digits r) = true /\
    value (digits r) = Z.of_nat (fact (Z.to_nat (value (digits n)))).
Proof. intros C B. now apply factorial_exact_fuel. Qed.

Lemma factorial_exact_witness :
  exists r,
    factorial 4 (mkNum "5") = Some r /\
    canonical (digits r) = true /\
    value (digits r) = Z.of_nat (fact (Z.to_nat (value "5"))).
Proof.
  apply (factorial_exact (mkNum "5") 4);
    [reflexivity | vm_compute; discriminate].
Defined.

(** X18. [scino] truncates and never rounds: two non-empty strings of
    the same length that agree on their first [sigfigs] characters
    render the same, whatever follows. *)
Theorem scino_truncates (v w : string) (sigfigs : Z) :
  v <> "" -> length v = length w -> 1 <= sigfigs ->
  substring 0 (Z.to_nat sigfigs) v = substring 0 (Z.to_nat sigfigs) w ->
  scino (mkNum v) sigfigs = scino (mkNum w) sigfigs.
Proof.
  intros NE L S1 E.
  destruct v as [| c v]; [congruence |].
  destruct w as [| d w]; [discriminate |].
  rewrite (scino_spec (mkNum (String c v))), (scino_spec (mkNum (String d w)))
    by (auto; discriminate).
  unfold scientific. cbn [digits]. rewrite <- L.
  replace (Z.to_nat sigfigs) with (S (Z.to_nat (sigfigs - 1))) in E by lia.
  cbn [substring] in E. injection E as Ec Es. subst d.
  cbn [substring]. rewrite Es.
  replace (substring 0 0 v) with (substring 0 0 w)
    by (destruct v, w; reflexivity).
  reflexivity.
Qed.

Lemma scino_truncates_witness :
  scino (mkNum "19999") 2 = scino (mkNum "19000") 2.
Proof.
  apply (scino_truncates "19999" "19000" 2);
    [discriminate | reflexivity | lia | reflexivity].
Defined.

Section OrderIsTransitive.

Lemma compare_loop_trans (xs : list ascii) :
  forall ys zs,
    compare_loop xs ys = 1 -> compare_loop ys zs = 1 ->
    List.length xs = List.length ys -> List.length ys = List.length zs ->
    compare_loop xs zs = 1.
Proof.
  induction xs as [| cx xs IH]; intros [| cy ys] [| cz zs] H1 H2 L1 L2;
    try discriminate.
  cbn [compare_loop] in *.
  destruct (Z.gtb_spec (val cx) (val cy)) as [G1 | G1];
    destruct (Z.gtb_spec (val cy) (val cz)) as [G2 | G2];
    destruct (Z.gtb_spec (val cx) (val cz)) as [G3 | G3];
    try reflexivity; try lia;
    destruct (Z.ltb_spec (val cx) (val cy)) as [K1 | K1]; try discriminate;
    destruct (Z.ltb_spec (val cy) (val cz)) as [K2 | K2]; try discriminate;
    destruct (Z.ltb_spec (val cx) (val cz)) as [K3 | K3]; try lia.
  apply (IH ys zs); auto.
Qed.

End OrderIsTransitive.

(** X19. "Greater" as decided by [compare] is transitive on all
    strings of 7-bit characters, digit strings or not: from
    [compare x y = 1] and [compare y z = 1] follows [compare x z = 1]. *)
Theorem compare_transitive (x y z : Num) :
  seven_bit_string (digits x) = true -> seven_bit_string (digits y) = true ->
  seven_bit_string (digits z) = true ->
  compare x y = 1 -> compare y z = 1 -> compare x z = 1.
Proof.
  unfold compare. intros _ _ _ H1 H2.
  destruct (Nat.ltb_spec (length (digits y)) (length (digits x))) as [A | A];
    destruct (Nat.ltb_spec (length (digits z)) (length (digits y))) as [B | B];
    destruct (Nat.ltb_spec (length (digits z)) (length (digits x))) as [C | C];
    try reflexivity; try lia;
    destruct (Nat.ltb_spec (length (digits x)) (length (digits y))) as [A' | A'];
    try discriminate;
    destruct (Nat.ltb_spec (length (digits y)) (length (digits z))) as [B' | B'];
    try discriminate; try lia.
  destruct (Nat.ltb_spec (length (digits x)) (length (digits z))) as [C' | C'];
    [lia |].
  apply (compare_loop_trans _ (list_ascii_of_string (digits y))); auto;
    rewrite !length_chars; lia.
Qed.

Lemma compare_transitive_witness :
  compare (mkNum "1a0") (mkNum "190") = 1.
Proof.
  apply (compare_transitive (mkNum "1a0") (mkNum "199") (mkNum "190"));
    reflexivity.
Defined.

(** X20. On canonical values the order seen by [compare] is kept by
    adding the same value on both sides, and by multiplying both sides
    by the same value other than "0". *)
Theorem compare_respects_arithmetic (a b c : Num) :
  canonical (digits a) = true -> canonical (digits b) = true ->
  canonical (digits c) = true ->
  compare (add a c) (add b c) = compare a b /\
  (digits c <> "0" -> compare (multiply a c) (multiply b c) = compare a b).
Proof.
  intros Ca Cb Cc.
  pose proof (canonical_is_value _ Ca) as Va.
  pose proof (canonical_is_value _ Cb) as Vb.
  pose proof (canonical_is_value _ Cc) as Vc.
  destruct (add_spec a c Va Vc) as (_ & Nac & _).
  destruct (add_spec b c Vb Vc) as (_ & Nbc & _).
  destruct (multiply_spec a c Va Vc) as (_ & Mac).
  destruct (multiply_spec b c Vb Vc) as (_ & Mbc).
  rewrite !compare_spec by auto using add_canonical, multiply_canonical.
  rewrite Nac, Nbc, Mac, Mbc. split.
  - f_equal.
    rewrite (Z.add_comm (value (digits a))), (Z.add_comm (value (digits b))).
    apply Z.add_compare_mono_l.
  - intros NZ. pose proof (canonical_positive _ Cc NZ) as P.
    f_equal. symmetry. apply Zmult_compare_compat_r. lia.
Qed.

Lemma compare_respects_arithmetic_witness :
  compare (add (mkNum "98") (mkNum "7")) (add (mkNum "105") (mkNum "7")) =
  compare (mkNum "98") (mkNum "105") /\
  (digits (mkNum "7") <> "0" ->
   compare (multiply (mkNum "98") (mkNum "7")) (multiply (mkNum "105") (mkNum "7")) =
   compare (mkNum "98") (mkNum "105")).
Proof.
  apply (compare_respects_arithmetic (mkNum "98") (mkNum "105") (mkNum "7"));
    reflexivity.
Defined.
